(** * Kleborate MLST assignment ([kleborate/mlstBLAST.py], [kleborate/truncation.py])

    A shallow embedding of the allele-to-ST resolution code and the
    properties its specification states about it.

    Conventions of the embedding.
    - Python [str] values are [string]s of 8-bit characters; the text handled
      here (gene identifiers, allele numbers, ST ids, tab-separated database
      lines) is ASCII.
    - Python exceptions are the [Err] side of [result]; only the exception
      class is kept.
    - A Python [dict] is an insertion-ordered association list with unique
      keys ([dict_set] overwrites in place, or appends a new key at the end),
      so that iteration order is the one Python guarantees.
    - [hit.score] and [hit.pcid] are Python floats that are only ever
      compared; they are rationals here (an aligner reports no NaN).
    - The coverage of [truncation_check] is a Python float that is compared
      and printed; it is a rational together with the sign of the float,
      which a zero has too. *)

From Stdlib Require Import String Ascii List ZArith QArith Qround Bool Lia.
From Stdlib Require Import DecimalString.
Import ListNotations.

Local Open Scope string_scope.
Local Open Scope Z_scope.

(* ================================================================== *)
(** ** Exceptions and the error monad *)

Inductive exn : Type :=
| IndexError
| KeyError
| ValueError
| TypeError
| ZeroDivisionError.

Inductive result (A : Type) : Type :=
| Ok (a : A)
| Err (e : exn).

Arguments Ok {A} a.
Arguments Err {A} e.

Definition bind {A B : Type} (r : result A) (k : A -> result B) : result B :=
  match r with
  | Ok a => k a
  | Err e => Err e
  end.

Notation "x <- r ;; k" := (bind r (fun x => k))
  (at level 61, r at next level, right associativity).
Notation "' pat <- r ;; k" := (bind r (fun x => match x with pat => k end))
  (at level 61, pat pattern, r at next level, right associativity).

Definition is_ok {A : Type} (r : result A) : bool :=
  match r with Ok _ => true | Err _ => false end.

(* ================================================================== *)
(** ** Python string operations used by the code *)

Module PyStr.

Definition is_digit (c : ascii) : bool :=
  let n := nat_of_ascii c in (48 <=? n)%nat && (n <=? 57)%nat.

(** ASCII characters for which [str.isspace] holds: TAB..CR, FS..US and
    the blank. *)
Definition is_space (c : ascii) : bool :=
  let n := nat_of_ascii c in
  ((9 <=? n)%nat && (n <=? 13)%nat) || ((28 <=? n)%nat && (n <=? 32)%nat).

Definition is_empty (s : string) : bool :=
  match s with EmptyString => true | String _ _ => false end.

(** [c in s] for a one-character [c]. *)
Fixpoint contains_char (c : ascii) (s : string) : bool :=
  match s with
  | EmptyString => false
  | String a r => Ascii.eqb a c || contains_char c r
  end.

(** ['__' in s]. *)
Fixpoint contains_dunder (s : string) : bool :=
  match s with
  | String "_" (String "_" _) => true
  | String _ r => contains_dunder r
  | EmptyString => false
  end.

Definition cons_head (a : ascii) (l : list string) : list string :=
  match l with
  | h :: t => String a h :: t
  | [] => [String a EmptyString]
  end.

(** [s.split(c)] for a one-character separator: never the empty list. *)
Fixpoint split_char (c : ascii) (s : string) : list string :=
  match s with
  | EmptyString => [EmptyString]
  | String a r =>
      if Ascii.eqb a c then EmptyString :: split_char c r
      else cons_head a (split_char c r)
  end.

(** [s.split('__')]: separators are found left to right, without overlap. *)
Fixpoint split_dunder (s : string) : list string :=
  match s with
  | EmptyString => [EmptyString]
  | String a r =>
      match a, r with
      | "_"%char, String "_" r' => EmptyString :: split_dunder r'
      | _, _ => cons_head a (split_dunder r)
      end
  end.

(** [sep.join(l)]. *)
Fixpoint join (sep : string) (l : list string) : string :=
  match l with
  | [] => EmptyString
  | [x] => x
  | x :: r => x ++ sep ++ join sep r
  end.

(** Stripping the characters of a class from the right and from the left. *)
Fixpoint rstrip_with (space : ascii -> bool) (s : string) : string :=
  match s with
  | EmptyString => EmptyString
  | String a r =>
      let r' := rstrip_with space r in
      if space a && is_empty r' then EmptyString else String a r'
  end.

Fixpoint lstrip_with (space : ascii -> bool) (s : string) : string :=
  match s with
  | EmptyString => EmptyString
  | String a r => if space a then lstrip_with space r else s
  end.

(** [s.rstrip()]. *)
Definition rstrip (s : string) : string := rstrip_with is_space s.

(** [s.replace(c, '')] for a one-character [c]. *)
Fixpoint remove_char (c : ascii) (s : string) : string :=
  match s with
  | EmptyString => EmptyString
  | String a r => if Ascii.eqb a c then remove_char c r else String a (remove_char c r)
  end.

(** [re.sub(r'-\d+%', '', s)].  One pass over [s]; [pending] holds the text
    ['-' digit*] of a match attempt in progress.  When the attempt fails the
    pending text is emitted: its digits cannot start another match, so the
    scan resumes at the character that broke the attempt. *)
Fixpoint re_sub_scan (pending : option string) (s : string) : string :=
  match s with
  | EmptyString => match pending with Some p => p | None => EmptyString end
  | String a r =>
      match pending with
      | None =>
          if Ascii.eqb a "-" then re_sub_scan (Some "-") r
          else String a (re_sub_scan None r)
      | Some p =>
          if is_digit a then re_sub_scan (Some (p ++ String a EmptyString)) r
          else if Ascii.eqb a "%" && negb (String.eqb p "-") then re_sub_scan None r
          else if Ascii.eqb a "-" then p ++ re_sub_scan (Some "-") r
          else p ++ String a (re_sub_scan None r)
      end
  end.

Definition re_sub_truncation (s : string) : string := re_sub_scan None s.

(** [str(n)] for an [int]. *)
Definition str_of_int (z : Z) : string := NilZero.string_of_int (Z.to_int z).

(** The whitespace [int] skips around an ASCII numeral: TAB..CR and the
    blank, but not FS..US. *)
Definition is_int_space (c : ascii) : bool :=
  let n := nat_of_ascii c in
  ((9 <=? n)%nat && (n <=? 13)%nat) || (n =? 32)%nat.

(** [int(s)] for a [str]: surrounding whitespace is ignored, one sign is
    allowed, and the digits may be grouped by single underscores. *)
Fixpoint int_digits (acc : Z) (after_digit : bool) (s : string) : option Z :=
  match s with
  | EmptyString => if after_digit then Some acc else None
  | String a r =>
      if is_digit a then
        int_digits (10 * acc + Z.of_nat (nat_of_ascii a - 48)) true r
      else if Ascii.eqb a "_" && after_digit then
        match r with
        | String b _ => if is_digit b then int_digits acc false r else None
        | EmptyString => None
        end
      else None
  end.

Definition int_of_string (s : string) : result Z :=
  let t := lstrip_with is_int_space (rstrip_with is_int_space s) in
  let signed :=
    match t with
    | String "-" r => option_map Z.opp (int_digits 0 false r)
    | String "+" r => int_digits 0 false r
    | _ => int_digits 0 false t
    end in
  match signed with
  | Some z => Ok z
  | None => Err ValueError
  end.

End PyStr.

Import PyStr.

(* ================================================================== *)
(** ** Python containers *)

(** An insertion-ordered [dict] with [str] keys. *)
Definition dict (V : Type) : Type := list (string * V).

Fixpoint dict_get {V : Type} (k : string) (d : dict V) : option V :=
  match d with
  | [] => None
  | (k', v) :: r => if String.eqb k k' then Some v else dict_get k r
  end.

Definition dict_mem {V : Type} (k : string) (d : dict V) : bool :=
  match dict_get k d with Some _ => true | None => false end.

(** [d[k] = v]: an existing key keeps its position. *)
Fixpoint dict_set {V : Type} (k : string) (v : V) (d : dict V) : dict V :=
  match d with
  | [] => [(k, v)]
  | (k', v') :: r =>
      if String.eqb k k' then (k', v) :: r else (k', v') :: dict_set k v r
  end.

(** [d[k]], raising [KeyError] on a missing key. *)
Definition dict_item {V : Type} (k : string) (d : dict V) : result V :=
  match dict_get k d with Some v => Ok v | None => Err KeyError end.

(** [l[i]], raising [IndexError] out of range ([i] non-negative). *)
Definition list_item {A : Type} (l : list A) (i : nat) : result A :=
  match nth_error l i with Some a => Ok a | None => Err IndexError end.

(** [l.pop(0)] and [l.pop()], returning the popped element and the rest. *)
Definition pop_first {A : Type} (l : list A) : result (A * list A) :=
  match l with
  | [] => Err IndexError
  | a :: r => Ok (a, r)
  end.

Definition pop_last {A : Type} (l : list A) : result (A * list A) :=
  match rev l with
  | [] => Err IndexError
  | a :: r => Ok (a, rev r)
  end.

(** A [for] loop whose body may raise. *)
Fixpoint loop {A S : Type} (body : S -> A -> result S) (l : list A) (s : S) : result S :=
  match l with
  | [] => Ok s
  | a :: r => s' <- body s a ;; loop body r s'
  end.

(* ================================================================== *)
(** ** Alignment hits *)

(** Modelled from the spec: the hit class of [kleborate/blastn.py] is not
    part of the sources at hand; the fields are those the specification's
    data model lists for an alignment hit, under the names the code reads. *)
Record Hit : Type := mkHit {
  gene_id : string;
  pcid : Q;
  alignment_length : Z;
  ref_length : Z;
  score : Q;
  strand : string;
  ref_start : Z;
  ref_end : Z
}.

Definition Qltb (a b : Q) : bool := negb (Qle_bool b a).

(** Values that reach a dynamically typed call. *)
Inductive pyval : Type :=
| PyHit (h : Hit)
| PyStr (s : string)
| PyInt (z : Z)
| PyFloat (q : Q).

(** The two routines [truncation.py] imports: [reverse_complement] of
    [kleborate/misc.py] and Biopython's translation to the first stop codon. *)
Class Collaborators : Type := {
  reverse_complement : string -> string;
  translate_to_stop : string -> string
}.

(* ================================================================== *)
(** ** [kleborate/truncation.py] *)

Module Truncation.
Section WithCollaborators.
Context `{Collaborators}.

Fixpoint take (n : nat) (s : string) : string :=
  match n, s with
  | S n', String a r => String a (take n' r)
  | _, _ => EmptyString
  end.

(** Round to the nearest integer, halves to the even one. *)
Definition round_half_even (q : Q) : Z :=
  let f := Qfloor q in
  let twice := Qfloor (2 * (q - inject_Z f)) in
  if (twice =? 0)%Z then f
  else if Qeq_bool (2 * (q - inject_Z f)) 1 then (if Z.even f then f else f + 1)
  else f + 1.

(** ['{:.0f}'.format(x)] for the float [x] of value [q] and sign bit
    [negative].  A float zero has a sign too: a negative zero, like a
    negative value that rounds to zero, prints [-0]. *)
Definition format_0f (negative : bool) (q : Q) : string :=
  let r := round_half_even q in
  if negative && (r =? 0)%Z then "-0" else str_of_int r.

(** [truncation_check(nucl_seq, strand, ref_start, ref_end, ref_length,
    cov_threshold)], lines 21-58. *)
Definition truncation_check (nucl_seq strand : string) (ref_start ref_end ref_length : Z)
    (cov_threshold : Q) : result string :=
  let nucl_seq := remove_char "-" nucl_seq in
  let '(nucl_seq, ref_start, ref_end) :=
    if String.eqb strand "minus"
    then (reverse_complement nucl_seq, ref_end, ref_start)
    else (nucl_seq, ref_start, ref_end) in
  if negb (ref_start =? 1)%Z then Ok "-0%"
  else
    let nucl_seq := hd EmptyString (split_char "N" nucl_seq) in
    let nucl_seq := take (String.length nucl_seq / 3 * 3) nucl_seq in
    let ref_aa_length := ((ref_length - 3) / 3)%Z in
    let translation := translate_to_stop nucl_seq in
    if (ref_aa_length =? 0)%Z then Err ZeroDivisionError
    else
      let coverage :=
        (100 * inject_Z (Z.of_nat (String.length translation)) / inject_Z ref_aa_length)%Q in
      (* [100.0 * len(translation)] is never negative, so the quotient has
         the sign of [ref_aa_length], also when its value is zero *)
      let negative := (ref_aa_length <? 0)%Z in
      if Qle_bool cov_threshold coverage then Ok EmptyString
      else Ok ("-" ++ format_0f negative coverage ++ "%").

(** A call [truncation_check(a1, ..., an)] with positional arguments only:
    the signature has five required parameters and one with a default, so
    any other argument count raises [TypeError] before the body runs.
    (Five or six arguments of other types than the body operates on are
    folded into the same error; no call site passes such arguments.) *)
Definition truncation_check_call (args : list pyval) : result string :=
  match args with
  | [PyStr n; PyStr s; PyInt a; PyInt b; PyInt c] => truncation_check n s a b c 90
  | [PyStr n; PyStr s; PyInt a; PyInt b; PyInt c; PyFloat t] => truncation_check n s a b c t
  | _ => Err TypeError
  end.

End WithCollaborators.
End Truncation.

(* ================================================================== *)
(** ** [kleborate/mlstBLAST.py] *)

Section MLST.
Context `{Collaborators}.

(** [get_allele_and_locus(hit)], lines 105-116. *)
Definition get_allele_and_locus (hit : Hit) : result (string * string) :=
  if contains_dunder (gene_id hit) then
    let gene_id_components := split_dunder (gene_id hit) in
    locus <- list_item gene_id_components 1 ;;
    allele <- list_item gene_id_components 2 ;;
    Ok (allele, locus)
  else
    let allele := gene_id hit in
    locus <- list_item (split_char "_" (gene_id hit)) 0 ;;
    Ok (allele, locus).

(** [sorted(locus_hits, key=lambda x: x.score, reverse=True)]: a stable
    sort, hits of equal score keep their order. *)
Fixpoint insert_by_score (x : Hit) (l : list Hit) : list Hit :=
  match l with
  | [] => [x]
  | y :: r => if Qltb (score x) (score y) then y :: insert_by_score x r else x :: l
  end.

Definition sorted_by_score_desc (l : list Hit) : list Hit :=
  fold_right insert_by_score [] l.

(** [keep_only_one_hit_per_locus(hits)], lines 119-129. *)
Definition group_hit (hits_per_locus : dict (list Hit)) (hit : Hit)
  : result (dict (list Hit)) :=
  '(_, locus) <- get_allele_and_locus hit ;;
  let group := match dict_get locus hits_per_locus with Some g => g | None => [] end in
  Ok (dict_set locus (group ++ [hit])%list hits_per_locus).

Definition keep_best (kept_hits : list Hit) (item : string * list Hit)
  : result (list Hit) :=
  let locus_hits := sorted_by_score_desc (snd item) in
  best_hit <- list_item locus_hits 0 ;;
  Ok (kept_hits ++ [best_hit])%list.

Definition keep_only_one_hit_per_locus (hits : list Hit) : result (list Hit) :=
  hits_per_locus <- loop group_hit hits [] ;;
  loop keep_best hits_per_locus [].

(** [get_best_allele_per_locus(hits, check_for_truncation)], lines 132-151.
    Line 141 calls [truncation_check] with the hit as its only argument and
    indexes the value returned. *)
Definition resolver_state : Type := (dict Q * dict string)%type.

Definition inexact (hit : Hit) : bool :=
  Qltb (pcid hit) 100 || (alignment_length hit <? ref_length hit)%Z.

Definition first_char (s : string) : result string :=
  match s with
  | EmptyString => Err IndexError
  | String a _ => Ok (String a EmptyString)
  end.

Definition annotate (hit : Hit) (allele : string) (check_for_truncation : bool)
  : result string :=
  let allele := if inexact hit then allele ++ "*" else allele in
  if check_for_truncation then
    tag <- Truncation.truncation_check_call [PyHit hit] ;;
    c <- first_char tag ;;
    Ok (allele ++ c)
  else Ok allele.

Definition store (st : resolver_state) (locus : string) (hit : Hit) (allele : string)
  : result resolver_state :=
  number <- list_item (split_char "_" allele) 1 ;;
  Ok (dict_set locus (score hit) (fst st), dict_set locus number (snd st)).

Definition resolve_hit (check_for_truncation : bool) (st : resolver_state) (hit : Hit)
  : result resolver_state :=
  '(allele, locus) <- get_allele_and_locus hit ;;
  allele <- annotate hit allele check_for_truncation ;;
  match dict_get locus (fst st) with
  | Some best =>
      if Qltb best (score hit) then store st locus hit allele else Ok st
  | None => store st locus hit allele
  end.

Definition get_best_allele_per_locus (hits : list Hit) (check_for_truncation : bool)
  : result (dict string) :=
  st <- loop (resolve_hit check_for_truncation) hits ([], []) ;;
  Ok (snd st).

(** [load_st_database(database, info_arg)], lines 154-177.  The database
    file is given by the lines that iterating over it yields. *)
Record st_database : Type := mkDb {
  st_names : list string;
  alleles_to_st : dict string;   (* key = comma-joined alleles, value = st *)
  st_to_info : dict string;      (* key = st, value = info of this ST *)
  header : list string
}.

Definition tab : ascii := "009"%char.

(** A data row, lines 168-172: the ST id, its info text and its alleles. *)
Definition read_row (info_arg : string) (fields : list string)
  : result (string * string * list string) :=
  '(st, fields) <- pop_first fields ;;
  '(info, fields) <- (if String.eqb info_arg "yes"
                      then pop_last fields
                      else Ok (EmptyString, fields)) ;;
  Ok (st, info, fields).

Definition load_line (info_arg : string) (db : st_database) (line : string)
  : result st_database :=
  let fields := split_char tab (rstrip line) in
  if (List.length (header db) =? 0)%nat then
    '(_, hdr) <- pop_first fields ;;
    hdr <- (if String.eqb info_arg "yes"
            then '(_, h) <- pop_last hdr ;; Ok h
            else Ok hdr) ;;
    Ok (mkDb (st_names db) (alleles_to_st db) (st_to_info db) hdr)
  else
    '(st, info, fields) <- read_row info_arg fields ;;
    Ok (mkDb (st_names db ++ [st])%list
             (dict_set (join "," fields) st (alleles_to_st db))
             (if String.eqb info_arg "yes"
              then dict_set st info (st_to_info db)
              else st_to_info db)
             (header db)).

Definition load_st_database (database : list string) (info_arg : string)
  : result st_database :=
  loop (load_line info_arg) database (mkDb [] [] [] []).

(** [sum(map(lambda x, y: bool(int(x)-int(y)), xs, ys))]: [map] stops at
    the end of the shorter list. *)
Fixpoint distance (xs ys : list string) : result nat :=
  match xs, ys with
  | x :: xs', y :: ys' =>
      a <- int_of_string x ;;
      b <- int_of_string y ;;
      d <- distance xs' ys' ;;
      Ok ((if (a =? b)%Z then 0 else 1) + d)%nat
  | _, _ => Ok 0%nat
  end.

(** [get_closest_locus_variant(query, annotated_query, sts)], lines 180-213.
    The function overwrites the ['-'] entries of the caller's list [query];
    the list as the call leaves it is the first component of the value
    here, the returned triple the second. *)
Record search_state : Type := mkSearch {
  closest : list Z;
  closest_alleles : dict string;   (* key = st, value = its profile key *)
  min_dist : nat
}.

Definition search_step (query : list string) (s : search_state) (item : string * string)
  : result search_state :=
  let '(st, st_id) := item in
  d <- distance (split_char "," st) query ;;
  if (d =? min_dist s)%nat then
    n <- int_of_string st_id ;;
    Ok (mkSearch (closest s ++ [n])%list (dict_set st_id st (closest_alleles s)) (min_dist s))
  else if (d <? min_dist s)%nat then
    n <- int_of_string st_id ;;
    Ok (mkSearch [n] (dict_set st_id st (closest_alleles s)) d)
  else Ok s.

(** [min(l)] on integers. *)
Definition py_min (l : list Z) : result Z :=
  match l with
  | [] => Err ValueError
  | a :: r => Ok (fold_left Z.min r a)
  end.

Definition zero_missing (item : string) : string :=
  if String.eqb item "-" then "0" else item.

Definition zero_inexact (item : string) : string :=
  if String.eqb item "-" || contains_char "*" item then "0"
  else re_sub_truncation item.

Definition get_closest_locus_variant (query annotated_query : list string) (sts : dict string)
  : result (list string * (string * nat * nat)) :=
  let start := mkSearch [] [] (List.length query) in
  let query := map zero_missing query in
  s <- loop (search_step query) sts start ;;
  m <- py_min (closest s) ;;
  let closest_st := str_of_int m in
  let annotated_query := map zero_inexact annotated_query in
  profile <- dict_item closest_st (closest_alleles s) ;;
  min_dist_incl_snps <- distance (split_char "," profile) annotated_query ;;
  Ok (query, (closest_st, min_dist s, min_dist_incl_snps)).

(** The loop over the header, lines 49-70. *)
Record profile : Type := mkProfile {
  best_st : list string;
  best_st_annotated : list string;
  mismatch_loci_including_snps : nat;
  missing_loci : nat
}.

Definition profile_step (best_allele : dict string) (p : profile) (locus : string)
  : profile :=
  match dict_get locus best_allele with
  | Some allele =>
      let allele_number := re_sub_truncation (remove_char "*" allele) in
      mkProfile (best_st p ++ [allele_number])%list
                (best_st_annotated p ++ [allele])%list
                (if contains_char "*" allele
                 then mismatch_loci_including_snps p + 1
                 else mismatch_loci_including_snps p)%nat
                (missing_loci p)
  | None =>
      mkProfile (best_st p ++ ["-"])%list
                (best_st_annotated p ++ ["-"])%list
                (mismatch_loci_including_snps p + 1)%nat
                (missing_loci p + 1)%nat
  end.

Definition build_profile (hdr : list string) (best_allele : dict string) : profile :=
  fold_left (profile_step best_allele) hdr (mkProfile [] [] 0%nat 0%nat).

(** "assign ST", lines 72-86: the ST before the second gate, the mismatch
    count and the list [best_st] as this step leaves them. *)
Definition assign_st (p : profile) (sts : dict string) (max_missing : Z)
  : result (string * nat * list string) :=
  let bst := join "," (best_st p) in
  if (Z.of_nat (mismatch_loci_including_snps p) <=? max_missing)%Z then
    if dict_mem bst sts then
      bst <- dict_item bst sts ;;
      Ok (bst, mismatch_loci_including_snps p, best_st p)
    else
      '(query, (bst, _, mismatch)) <-
         get_closest_locus_variant (best_st p) (best_st_annotated p) sts ;;
      Ok (bst, mismatch, query)
  else Ok ("0", mismatch_loci_including_snps p, best_st p).

(** Lines 88-100: the second gate, the info column and the label. *)
Definition gate2 (required_exact_matches : nat) (query : list string) (mismatch : nat)
    (bst : string) : string :=
  let exact_matches := (Z.of_nat (List.length query) - Z.of_nat mismatch)%Z in
  if (exact_matches <? Z.of_nat required_exact_matches)%Z then "0" else bst.

Definition info_column (info_arg : string) (info : dict string) (report_incomplete : bool)
    (missing : nat) (bst : string) : result string :=
  if String.eqb info_arg "yes" && dict_mem bst info then
    info_final <- dict_item bst info ;;
    if report_incomplete && (0 <? missing)%nat
    then Ok (info_final ++ " (incomplete)")
    else Ok info_final
  else Ok EmptyString.

Definition label (mismatch : nat) (bst : string) : string :=
  if (0 <? mismatch)%nat && negb (String.eqb bst "0")
  then bst ++ "-" ++ str_of_int (Z.of_nat mismatch) ++ "LV"
  else bst.

(** [mlst_blast], lines 31-102.  Lines 39-43 obtain [hits] from the
    external aligner [run_blastn]; its result is an argument here, in place
    of [seqs], [assemblies], [min_cov] and [min_ident].
    [int(len(header) / 2)] is the integer quotient. *)
Definition mlst_blast (database : list string) (info_arg : string) (hits : list Hit)
    (max_missing : Z)
    (check_for_truncation report_incomplete allow_multiple : bool)
  : result (string * list string * string) :=
  db <- load_st_database database info_arg ;;
  let required_exact_matches := (List.length (header db) / 2)%nat in
  hits <- (if negb allow_multiple then keep_only_one_hit_per_locus hits else Ok hits) ;;
  best_allele <- get_best_allele_per_locus hits check_for_truncation ;;
  let p := build_profile (header db) best_allele in
  '(bst, mismatch, query) <- assign_st p (alleles_to_st db) max_missing ;;
  let bst := gate2 required_exact_matches query mismatch bst in
  info_final <- info_column info_arg (st_to_info db) report_incomplete (missing_loci p) bst ;;
  Ok (label mismatch bst, best_st_annotated p, info_final).

End MLST.

(* ================================================================== *)
(** ** Concrete inputs *)

Module Examples.

(** Collaborators for running the definitions on concrete inputs. *)
Definition no_collaborators : Collaborators :=
  {| reverse_complement := fun s => s; translate_to_stop := fun s => s |}.

(** A forward-strand hit covering the whole reference. *)
Definition hit (g : string) (identity : Q) (aligned reference : Z) (sc : Q) : Hit :=
  mkHit g identity aligned reference sc "plus" 1 reference.

Definition exact_hit (g : string) (sc : Q) : Hit := hit g 100 450 450 sc.
Definition inexact_hit (g : string) (sc : Q) : Hit := hit g 99 450 450 sc.

Definition row (fields : list string) : string :=
  join (String tab EmptyString) fields ++ String "010" EmptyString.

(** Three loci, one registered ST. *)
Definition db3 : list string :=
  [row ["ST"; "gapA"; "infB"; "mdh"]; row ["10"; "1"; "2"; "3"]].

(** Two loci with an info column. *)
Definition db2_info : list string :=
  [row ["ST"; "gapA"; "infB"; "clonal_group"];
   row ["10"; "1"; "2"; "CG10"];
   row ["11"; "1"; "3"; "CG11"]].

(** One locus with an info column; the table registers an ST named 0. *)
Definition db_st0 : list string :=
  [row ["ST"; "gapA"; "clonal_group"]; row ["0"; "1"; "CG0"]].

(** Two rows carrying the same profile. *)
Definition db_dup : list string :=
  [row ["ST"; "gapA"; "infB"]; row ["1"; "1"; "1"]; row ["2"; "1"; "1"]].

(** One locus, one registered ST. *)
Definition db1 : list string := [row ["ST"; "gapA"]; row ["5"; "1"]].

(** An ST id that [int] accepts and [str] does not give back. *)
Definition db_padded : list string :=
  [row ["ST"; "gapA"; "infB"]; row ["01"; "1"; "1"]].

(** A header without data rows. *)
Definition db_empty : list string := [row ["ST"; "gapA"; "infB"]].

(** The table that [db3] loads into. *)
Definition table3 : st_database :=
  mkDb ["10"] [("1,2,3", "10")] [] ["gapA"; "infB"; "mdh"].

(** Calls as the resolver records them when a truncation tag is appended:
    an exact [gapA], an inexact [infB], a truncated [mdh]. *)
Definition tagged_calls : dict string :=
  [("gapA", "1"); ("infB", "2*"); ("mdh", "4-70%")].

End Examples.

(* ================================================================== *)
(** ** Vocabulary of the statements *)

(** *** Calls and counts of the header loop *)

(** Lines 59-60: the call without ['*'] and truncation tag. *)
Definition allele_number (call : string) : string :=
  re_sub_truncation (remove_char "*" call).

(** The call recorded for a locus: its best allele, or ['-'] without hit. *)
Definition call_of (best_allele : dict string) (locus : string) : string :=
  match dict_get locus best_allele with Some allele => allele | None => "-" end.

Definition number_of (best_allele : dict string) (locus : string) : string :=
  match dict_get locus best_allele with
  | Some allele => allele_number allele
  | None => "-"
  end.

(** A locus is a mismatch when it has no hit or its call carries ['*']. *)
Definition is_mismatch (best_allele : dict string) (locus : string) : bool :=
  match dict_get locus best_allele with
  | Some allele => contains_char "*" allele
  | None => true
  end.

Definition is_missing (best_allele : dict string) (locus : string) : bool :=
  match dict_get locus best_allele with Some _ => false | None => true end.

Definition count_loci (f : string -> bool) (hdr : list string) : nat :=
  List.length (filter f hdr).


(** Lines 49-102 of [mlst_blast], once the table is loaded and the hits are
    resolved. *)
Definition assign_and_report (info_arg : string) (max_missing : Z) (ri : bool)
    (db : st_database) (best_allele : dict string)
  : result (string * list string * string) :=
  let p := build_profile (header db) best_allele in
  '(bst, mismatch, query) <- assign_st p (alleles_to_st db) max_missing ;;
  let bst := gate2 (List.length (header db) / 2) query mismatch bst in
  info_final <- info_column info_arg (st_to_info db) ri (missing_loci p) bst ;;
  Ok (label mismatch bst, best_st_annotated p, info_final).

(** *** Well-formed tables *)

Definition parses (s : string) : bool := is_ok (int_of_string s).

(** An ST id that [str(int(id))] gives back. *)
Definition canonical (id : string) : bool :=
  match int_of_string id with
  | Ok z => String.eqb (str_of_int z) id
  | Err _ => false
  end.

(** The database side of a well-formed search: every allele number of every
    registered profile is accepted by [int], every ST id is canonical. *)
Definition wf_sts (sts : dict string) : bool :=
  forallb (fun item => forallb parses (split_char "," (fst item)) && canonical (snd item)) sts.

(** An allele number that [int] reads as a non-zero integer. *)
Definition nonzero (s : string) : bool :=
  match int_of_string s with
  | Ok z => negb (z =? 0)%Z
  | Err _ => false
  end.

(** Every registered profile has [n] allele numbers, none of them zero. *)
Definition full_profiles (n : nat) (sts : dict string) : bool :=
  forallb (fun item =>
             let alleles := split_char "," (fst item) in
             (List.length alleles =? n)%nat && forallb nonzero alleles) sts.

(** The distance of a registered profile to the query. *)
Definition dist_to (query : list string) (key : string) : result nat :=
  distance (split_char "," key) query.

(** Keys are unique in a dictionary built by [dict_set]. *)
Definition dict_wf {V : Type} (d : dict V) : Prop := NoDup (map fst d).

(** *** Rows of the database file *)

Definition row_of (info_arg line : string) : result (string * string * list string) :=
  read_row info_arg (split_char tab (rstrip line)).



(** *** Hits *)

(** The allele name as line 146 or 149 splits it when truncation checking
    is off. *)
Definition marked_name (hit : Hit) (allele : string) : string :=
  if inexact hit then allele ++ "*" else allele.

(** Whether the resolver stores the hit: first of its locus, or a score
    strictly above the best so far. *)
Definition stored (st : resolver_state) (locus : string) (hit : Hit) : bool :=
  match dict_get locus (fst st) with
  | Some best => Qltb best (score hit)
  | None => true
  end.

(** A hit whose gene id yields a locus and an allele name with an
    underscore. *)
Definition wf_hit (hit : Hit) : bool :=
  match get_allele_and_locus hit with
  | Ok (allele, _) => contains_char "_" (marked_name hit allele)
  | Err _ => false
  end.

(** A hit whose gene id yields a locus and, as second underscore-separated
    field of the allele name, a number that [int] accepts. *)
Definition numeric_hit (hit : Hit) : bool :=
  match get_allele_and_locus hit with
  | Ok (allele, _) =>
      match nth_error (split_char "_" (marked_name hit allele)) 1 with
      | Some call => parses (allele_number call)
      | None => false
      end
  | Err _ => false
  end.

(** The better of two hits of one locus, the earlier one on equal scores. *)
Definition pick (x y : Hit) : Hit := if Qltb (score x) (score y) then y else x.

(** *** Loop invariants *)

(** What the loop of lines 191-200 maintains over the items seen so far. *)
Record search_inv (query : list string) (seen : dict string) (s : search_state)
  : Prop := mkInv {
  inv_lower : forall key id, In (key, id) seen ->
      exists d, dist_to query key = Ok d /\ (min_dist s <= d)%nat;
  inv_closest : forall z, In z (closest s) <->
      exists key id, In (key, id) seen /\ dist_to query key = Ok (min_dist s)
                     /\ int_of_string id = Ok z;
  inv_alleles : forall id key, dict_get id (closest_alleles s) = Some key ->
      In (key, id) seen;
  inv_keys : forall z, In z (closest s) ->
      exists id key, dict_get id (closest_alleles s) = Some key
                     /\ int_of_string id = Ok z /\ dist_to query key = Ok (min_dist s)
}.

(** Once an item has been seen, some ST is recorded as closest. *)
Definition search_started (query : list string) (s : search_state) : Prop :=
  closest s <> [] \/ (List.length query <= min_dist s)%nat.

(** What the resolver stores for the best hit of a locus. *)
Definition call_stored (locus : string) (best : Hit) (number : string) : Prop :=
  exists allele,
    get_allele_and_locus best = Ok (allele, locus) /\
    nth_error (split_char "_" (marked_name best allele)) 1 = Some number.

(** The resolver state after a list of hits against the groups the reducer
    builds from the same list. *)
Definition agree (st : resolver_state) (groups : dict (list Hit)) : Prop :=
  forall locus,
    match dict_get locus groups with
    | None => dict_get locus (fst st) = None /\ dict_get locus (snd st) = None
    | Some g =>
        exists best number,
          hd_error (sorted_by_score_desc g) = Some best /\
          call_stored locus best number /\
          dict_get locus (fst st) = Some (score best) /\
          dict_get locus (snd st) = Some number
    end.

(** A group of the reducer with the hit kept for it. *)
Definition kept_for (ba : dict string) (item : string * list Hit) (best : Hit) : Prop :=
  exists number,
    hd_error (sorted_by_score_desc (snd item)) = Some best /\
    call_stored (fst item) best number /\
    dict_get (fst item) ba = Some number.

(** Every call of the resolver's result has a number that [int] accepts. *)
Definition values_ok (ba : dict string) : Prop :=
  forall l call, dict_get l ba = Some call -> parses (allele_number call) = true.

(** *** Gene identifiers *)

Fixpoint ends_with_underscore (s : string) : bool :=
  match s with
  | EmptyString => false
  | String a EmptyString => Ascii.eqb a "_"
  | String _ r => ends_with_underscore r
  end.

(** A field of an srst2 identifier: no double underscore inside, no
    underscore at its end. *)
Definition clean_part (s : string) : bool :=
  negb (contains_dunder s) && negb (ends_with_underscore s).

(** *** Hits of a locus *)

Definition locus_of (hit : Hit) : option string :=
  match get_allele_and_locus hit with
  | Ok (_, locus) => Some locus
  | Err _ => None
  end.

Definition has_locus (locus : string) (hit : Hit) : bool :=
  match locus_of hit with
  | Some l => String.eqb l locus
  | None => false
  end.

(** The hits of a locus, in input order. *)
Definition hits_of (locus : string) (hits : list Hit) : list Hit :=
  filter (has_locus locus) hits.

(** [best] is the first hit of maximal score in [group]. *)
Definition first_best (group : list Hit) (best : Hit) : Prop :=
  exists before after,
    group = (before ++ best :: after)%list /\
    Forall (fun h => (score h < score best)%Q) before /\
    Forall (fun h => (score h <= score best)%Q) after.

(** The groups of the reducer's first loop for the hits seen so far. *)
Definition groups_of (hits : list Hit) (groups : dict (list Hit)) : Prop :=
  dict_wf groups /\
  forall locus,
    dict_get locus groups =
    match hits_of locus hits with
    | [] => None
    | g => Some g
    end.

(** [t] appended to the last string of a list. *)
Fixpoint append_last (t : string) (l : list string) : list string :=
  match l with
  | [] => [t]
  | [x] => [x ++ t]
  | x :: r => x :: append_last t r
  end.

(** *** Markers of a call *)

Fixpoint all_digits (s : string) : bool :=
  match s with
  | EmptyString => true
  | String a r => is_digit a && all_digits r
  end.

(** A text the pattern [-\d+%] matches as a whole. *)
Definition is_truncation_tag (tag : string) : Prop :=
  exists digits,
    all_digits digits = true /\ digits <> EmptyString /\ tag = "-" ++ digits ++ "%".

(** *** The distance the specification describes *)

(** The number of positions at which two lists of allele numbers differ;
    positions beyond the shorter list do not count. *)
Definition differing_positions (xs ys : list Z) : nat :=
  List.length (filter (fun pos => negb (fst pos =? snd pos)%Z) (combine xs ys)).

(** An allele number as [int] reads it, if it does. *)
Definition read_int (s : string) : option Z :=
  match int_of_string s with Ok z => Some z | Err _ => None end.

Fixpoint read_all (read : string -> option Z) (l : list string) : option (list Z) :=
  match l with
  | [] => Some []
  | s :: r =>
      match read s, read_all read r with
      | Some z, Some zs => Some (z :: zs)
      | _, _ => None
      end
  end.

Definition read_ints (l : list string) : option (list Z) := read_all read_int l.

(** An entry of the query of the first search: ['-'] stands for [0]. *)
Definition read_query_entry (s : string) : option Z :=
  if String.eqb s "-" then Some 0%Z else read_int s.

Definition read_query (l : list string) : option (list Z) := read_all read_query_entry l.

(** The text before the first ['-'] of a call, and the rest of the call. *)
Fixpoint before_dash (s : string) : string :=
  match s with
  | EmptyString => EmptyString
  | String a r => if Ascii.eqb a "-" then EmptyString else String a (before_dash r)
  end.

Fixpoint from_dash (s : string) : string :=
  match s with
  | EmptyString => EmptyString
  | String a r => if Ascii.eqb a "-" then s else from_dash r
  end.

(** Digits up to a final ['%'], at least one of them unless [seen]. *)
Fixpoint digits_percent (seen : bool) (s : string) : bool :=
  match s with
  | EmptyString => false
  | String a r =>
      if is_digit a then digits_percent true r
      else Ascii.eqb a "%" && is_empty r && seen
  end.

(** A truncation tag: ['-'], one digit or more, ['%']. *)
Definition is_tag (t : string) : bool :=
  match t with
  | String a r => Ascii.eqb a "-" && digits_percent false r
  | EmptyString => false
  end.

(** An annotated call in the second search: ['-'] and a call with ['*']
    stand for [0], any other call for its allele number, which is the call
    without its truncation tag. *)
Definition read_call (call : string) : option Z :=
  if String.eqb call "-" || contains_char "*" call then Some 0%Z
  else
    let tag := from_dash call in
    if is_empty tag || is_tag tag then read_int (before_dash call) else None.

Definition read_calls (l : list string) : option (list Z) := read_all read_call l.

(** The allele number of a call in the first search: ['-'] stands for [0],
    any other call for its allele number, which is the call without ['*']
    and without its truncation tag. *)
Definition read_number (call : string) : option Z :=
  if String.eqb call "-" then Some 0%Z
  else
    let plain := remove_char "*" call in
    let tag := from_dash plain in
    if is_empty tag || is_tag tag then read_int (before_dash plain) else None.

Definition read_numbers (l : list string) : option (list Z) := read_all read_number l.

(** The distance of a registered profile to the allele numbers [zs]: its
    own allele numbers are read at the positions that [zs] has. *)
Definition profile_distance (key : string) (zs : list Z) : option nat :=
  option_map (fun kz => differing_positions kz zs)
             (read_ints (firstn (List.length zs) (split_char "," key))).

(** *** Truncation *)

(** The reference position at which the hit starts, on the strand of the
    reference. *)
Definition starts_at (strand : string) (ref_start ref_end : Z) : Z :=
  if String.eqb strand "minus" then ref_end else ref_start.

(** Collaborators that translate whole-codon sequences without [N] like
    [Examples.no_collaborators] and give a mark on anything else. *)
Definition codon_only_collaborators : Collaborators :=
  {| reverse_complement := fun s => s;
     translate_to_stop := fun s =>
       if (String.length s mod 3 =? 0)%nat && negb (contains_char "N" s)
       then s else "?" |}.

(* ================================================================== *)
(** ** The error monad *)

Lemma bind_ok_inv {A B : Type} (r : result A) (k : A -> result B) (b : B) :
  bind r k = Ok b -> exists a, r = Ok a /\ k a = Ok b.
Proof.
  destruct r as [a|e]; simpl; intros H; [exists a; split; auto | discriminate].
Qed.

(* ================================================================== *)
(** ** The loop over the header *)

Section HeaderLoop.
Variable best_allele : dict string.

Lemma fold_profile_step (hdr : list string) (p : profile) :
  fold_left (profile_step best_allele) hdr p =
  mkProfile (best_st p ++ map (number_of best_allele) hdr)%list
            (best_st_annotated p ++ map (call_of best_allele) hdr)%list
            (mismatch_loci_including_snps p + count_loci (is_mismatch best_allele) hdr)%nat
            (missing_loci p + count_loci (is_missing best_allele) hdr)%nat.
Proof.
  revert p; induction hdr as [|locus hdr IH]; intros p; simpl.
  - unfold count_loci; simpl. rewrite !app_nil_r, !Nat.add_0_r. now destruct p.
  - rewrite IH. unfold profile_step, number_of, allele_number, call_of, is_mismatch, is_missing, count_loci.
    simpl. destruct (dict_get locus best_allele) as [allele|]; simpl.
    + destruct (contains_char "*" allele); simpl;
        rewrite <- !app_assoc; simpl; f_equal; lia.
    + rewrite <- !app_assoc; simpl; f_equal; lia.
Qed.

Lemma build_profile_eq (hdr : list string) :
  build_profile hdr best_allele =
  mkProfile (map (number_of best_allele) hdr) (map (call_of best_allele) hdr)
            (count_loci (is_mismatch best_allele) hdr) (count_loci (is_missing best_allele) hdr).
Proof. unfold build_profile. now rewrite fold_profile_step. Qed.

Lemma best_st_length (hdr : list string) :
  List.length (best_st (build_profile hdr best_allele)) = List.length hdr.
Proof. rewrite build_profile_eq; simpl. apply length_map. Qed.

End HeaderLoop.

(* ================================================================== *)
(** ** Strings *)

Lemma append_empty_r (s : string) : s ++ EmptyString = s.
Proof. induction s as [|a s IH]; simpl; [reflexivity | now rewrite IH]. Qed.

(* ================================================================== *)
(** ** Dictionaries *)

Lemma dict_item_mem {V : Type} (k : string) (d : dict V) :
  dict_mem k d = true -> exists v, dict_get k d = Some v /\ dict_item k d = Ok v.
Proof.
  unfold dict_mem, dict_item. destruct (dict_get k d) as [v|]; [|discriminate].
  intros _. now exists v.
Qed.

Lemma dict_get_set_same {V : Type} (k : string) (v : V) (d : dict V) :
  dict_get k (dict_set k v d) = Some v.
Proof.
  induction d as [|[k' v'] d IH]; simpl.
  - now rewrite String.eqb_refl.
  - destruct (String.eqb k k') eqn:E; simpl; rewrite E; auto.
Qed.

Lemma dict_get_set_other {V : Type} (k k0 : string) (v : V) (d : dict V) :
  k0 <> k -> dict_get k0 (dict_set k v d) = dict_get k0 d.
Proof.
  intros N. induction d as [|[k' v'] d IH]; simpl.
  - apply String.eqb_neq in N. now rewrite N.
  - destruct (String.eqb k k') eqn:E; simpl.
    + apply String.eqb_eq in E; subst k'.
      apply String.eqb_neq in N. now rewrite N.
    + destruct (String.eqb k0 k'); auto.
Qed.

(* ================================================================== *)
(** ** The gates, the info column and the label *)

Lemma info_column_total (info_arg : string) (info : dict string) (ri : bool)
    (missing : nat) (bst : string) :
  exists s, info_column info_arg info ri missing bst = Ok s.
Proof.
  unfold info_column.
  destruct (String.eqb info_arg "yes" && dict_mem bst info) eqn:E; [|eauto].
  apply andb_true_iff in E as [_ M].
  destruct (dict_item_mem _ _ M) as [v [_ ->]]; simpl.
  destruct (ri && (0 <? missing)%nat); eauto.
Qed.

Lemma label_zero (mismatch : nat) : label mismatch "0" = "0".
Proof. unfold label. simpl. now rewrite andb_false_r. Qed.

Lemma gate2_zero (required : nat) (query : list string) (mismatch : nat) :
  gate2 required query mismatch "0" = "0".
Proof. unfold gate2. now destruct (_ <? _)%Z. Qed.

(** [mlst_blast] once the database is loaded and the hits are resolved. *)
Lemma mlst_blast_unfold `{Collaborators} (database : list string) (info_arg : string)
    (hits : list Hit) (max_missing : Z) (ct ri am : bool)
    (db : st_database) (kept : list Hit) (best_allele : dict string) :
  load_st_database database info_arg = Ok db ->
  (if negb am then keep_only_one_hit_per_locus hits else Ok hits) = Ok kept ->
  get_best_allele_per_locus kept ct = Ok best_allele ->
  mlst_blast database info_arg hits max_missing ct ri am =
  (let p := build_profile (header db) best_allele in
   '(bst, mismatch, query) <- assign_st p (alleles_to_st db) max_missing ;;
   let bst := gate2 (List.length (header db) / 2) query mismatch bst in
   info_final <- info_column info_arg (st_to_info db) ri (missing_loci p) bst ;;
   Ok (label mismatch bst, best_st_annotated p, info_final)).
Proof.
  intros L K R. unfold mlst_blast. rewrite L; simpl. rewrite K; simpl. now rewrite R.
Qed.

(** The first gate, line 75 and lines 85-86. *)
Lemma assign_st_gate1 (hdr : list string) (best_allele sts : dict string)
    (max_missing : Z) :
  (max_missing < Z.of_nat (count_loci (is_mismatch best_allele) hdr))%Z ->
  assign_st (build_profile hdr best_allele) sts max_missing =
  Ok ("0", count_loci (is_mismatch best_allele) hdr,
      best_st (build_profile hdr best_allele)).
Proof.
  intros G. unfold assign_st.
  replace (mismatch_loci_including_snps (build_profile hdr best_allele))
    with (count_loci (is_mismatch best_allele) hdr)
    by (now rewrite build_profile_eq).
  destruct (Z.leb_spec (Z.of_nat (count_loci (is_mismatch best_allele) hdr))
              max_missing); [lia | reflexivity].
Qed.

Lemma mlst_blast_gate1 `{Collaborators} (database : list string) (info_arg : string)
    (hits : list Hit) (max_missing : Z) (ct ri am : bool)
    (db : st_database) (kept : list Hit) (best_allele : dict string) :
  load_st_database database info_arg = Ok db ->
  (if negb am then keep_only_one_hit_per_locus hits else Ok hits) = Ok kept ->
  get_best_allele_per_locus kept ct = Ok best_allele ->
  (max_missing < Z.of_nat (count_loci (is_mismatch best_allele) (header db)))%Z ->
  exists info,
    mlst_blast database info_arg hits max_missing ct ri am =
    Ok ("0", map (call_of best_allele) (header db), info).
Proof.
  intros L K R G.
  rewrite (mlst_blast_unfold _ _ _ _ _ _ _ _ _ _ L K R). cbv zeta.
  rewrite (assign_st_gate1 _ _ _ _ G); cbn [bind]. rewrite gate2_zero, label_zero.
  destruct (info_column_total info_arg (st_to_info db) ri
              (missing_loci (build_profile (header db) best_allele)) "0") as [info ->].
  cbn [bind]. exists info. now rewrite build_profile_eq.
Qed.

(** C1.  Whenever the number of header loci that are missing or carry ['*']
    exceeds [max_missing], the assignment step yields ["0"] whatever the ST
    table holds (no lookup takes place), and the label [mlst_blast] returns
    is exactly ["0"]. *)
Theorem gate1_forces_zero `{Collaborators} (database : list string) (info_arg : string)
    (hits : list Hit) (max_missing : Z) (ct ri am : bool)
    (db : st_database) (kept : list Hit) (best_allele : dict string) :
  load_st_database database info_arg = Ok db ->
  (if negb am then keep_only_one_hit_per_locus hits else Ok hits) = Ok kept ->
  get_best_allele_per_locus kept ct = Ok best_allele ->
  (max_missing < Z.of_nat (count_loci (is_mismatch best_allele) (header db)))%Z ->
  let p := build_profile (header db) best_allele in
  (forall sts : dict string,
     assign_st p sts max_missing =
     Ok ("0", count_loci (is_mismatch best_allele) (header db), best_st p)) /\
  exists info,
    mlst_blast database info_arg hits max_missing ct ri am =
    Ok ("0", map (call_of best_allele) (header db), info).
Proof.
  intros L K R G p. split.
  - intros sts. now apply assign_st_gate1.
  - eapply mlst_blast_gate1; eassumption.
Qed.

Lemma gate1_forces_zero_witness :
  exists info,
    @mlst_blast Examples.no_collaborators Examples.db3 "no"
      [Examples.exact_hit "gapA_1" 800; Examples.exact_hit "infB_2" 800] 0
      false false false
    = Ok ("0", ["1"; "2"; "-"], info).
Proof.
  exact (proj2 (@gate1_forces_zero Examples.no_collaborators Examples.db3 "no"
                  [Examples.exact_hit "gapA_1" 800; Examples.exact_hit "infB_2" 800] 0
                  false false false _ _ _ eq_refl eq_refl eq_refl eq_refl)).
Defined.

Lemma zero_missing_length (query : list string) :
  List.length (map zero_missing query) = List.length query.
Proof. apply length_map. Qed.

Lemma get_closest_query (query annotated : list string) (sts : dict string)
    (q : list string) (r : string * nat * nat) :
  get_closest_locus_variant query annotated sts = Ok (q, r) ->
  q = map zero_missing query.
Proof.
  unfold get_closest_locus_variant. intros E.
  apply bind_ok_inv in E as [s [_ E]].
  apply bind_ok_inv in E as [m [_ E]].
  apply bind_ok_inv in E as [pr [_ E]].
  apply bind_ok_inv in E as [d [_ E]].
  now inversion E.
Qed.

Lemma assign_st_query_length (p : profile) (sts : dict string) (max_missing : Z)
    (bst : string) (mismatch : nat) (query : list string) :
  assign_st p sts max_missing = Ok (bst, mismatch, query) ->
  List.length query = List.length (best_st p).
Proof.
  unfold assign_st.
  destruct (_ <=? _)%Z.
  - destruct (dict_mem _ sts).
    + intros E. apply bind_ok_inv in E as [v [_ E]]. now inversion E.
    + intros E. apply bind_ok_inv in E as [[q [[st md] mm]] [G E]].
      inversion E; subst. apply get_closest_query in G. subst.
      apply zero_missing_length.
  - intros E. now inversion E.
Qed.

(** C2.  With [exact_matches = locus_count - mismatch], the mismatch count
    being the one the assignment step leaves (recomputed by the nearest
    variant search when it ran), [exact_matches < locus_count / 2] makes the
    returned label ["0"], whatever ST the assignment step found. *)
Theorem gate2_forces_zero `{Collaborators} (database : list string) (info_arg : string)
    (hits : list Hit) (max_missing : Z) (ct ri am : bool)
    (db : st_database) (kept : list Hit) (best_allele : dict string)
    (bst : string) (mismatch : nat) (query : list string) :
  load_st_database database info_arg = Ok db ->
  (if negb am then keep_only_one_hit_per_locus hits else Ok hits) = Ok kept ->
  get_best_allele_per_locus kept ct = Ok best_allele ->
  assign_st (build_profile (header db) best_allele) (alleles_to_st db) max_missing
    = Ok (bst, mismatch, query) ->
  (Z.of_nat (List.length (header db)) - Z.of_nat mismatch
     < Z.of_nat (List.length (header db) / 2))%Z ->
  exists info,
    mlst_blast database info_arg hits max_missing ct ri am =
    Ok ("0", map (call_of best_allele) (header db), info).
Proof.
  intros L K R A G.
  rewrite (mlst_blast_unfold _ _ _ _ _ _ _ _ _ _ L K R). cbv zeta.
  rewrite A; cbn [bind].
  assert (Z0 : gate2 (List.length (header db) / 2) query mismatch bst = "0").
  { unfold gate2. rewrite (assign_st_query_length _ _ _ _ _ _ A), best_st_length.
    destruct (Z.ltb_spec (Z.of_nat (List.length (header db)) - Z.of_nat mismatch)
                (Z.of_nat (List.length (header db) / 2))); [reflexivity | lia]. }
  rewrite Z0, label_zero.
  destruct (info_column_total info_arg (st_to_info db) ri
              (missing_loci (build_profile (header db) best_allele)) "0") as [info ->].
  cbn [bind]. exists info. now rewrite build_profile_eq.
Qed.

(** Both loci hit the alleles of ST 10, each inexactly: the key ["1,2"] is
    registered, yet no locus is an exact match. *)
Lemma gate2_forces_zero_witness :
  exists info,
    @mlst_blast Examples.no_collaborators Examples.db2_info "yes"
      [Examples.inexact_hit "gapA_1" 800; Examples.inexact_hit "infB_2" 800] 2
      false false false
    = Ok ("0", ["1*"; "2*"], info).
Proof.
  exact (@gate2_forces_zero Examples.no_collaborators Examples.db2_info "yes"
           [Examples.inexact_hit "gapA_1" 800; Examples.inexact_hit "infB_2" 800] 2
           false false false _ _ _ "10" 2%nat ["1"; "2"]
           eq_refl eq_refl eq_refl eq_refl eq_refl).
Defined.

(** C8, as stated, fails: the info lookup is guarded by membership of the ST
    in the info table, not by the ST being different from ["0"].  With an ST
    named 0 in the table, an unassignable query still gets its text. *)
Lemma info_for_unassigned_st :
  @mlst_blast Examples.no_collaborators Examples.db_st0 "yes" [] 0 false false false
  = Ok ("0", ["-"], "CG0").
Proof. vm_compute. reflexivity. Qed.

(** C8, amended.  The info string is non-empty only when an info column was
    configured and the assigned ST (after the second gate, before the LV
    suffix) is a key of the info table; it is then that ST's text, with
    [" (incomplete)"] appended exactly when a locus is missing and
    incomplete reporting was requested. *)
Theorem info_string_spec `{Collaborators} (database : list string) (info_arg : string)
    (hits : list Hit) (max_missing : Z) (ct ri am : bool)
    (db : st_database) (kept : list Hit) (best_allele : dict string)
    (bst : string) (mismatch : nat) (query : list string) :
  load_st_database database info_arg = Ok db ->
  (if negb am then keep_only_one_hit_per_locus hits else Ok hits) = Ok kept ->
  get_best_allele_per_locus kept ct = Ok best_allele ->
  assign_st (build_profile (header db) best_allele) (alleles_to_st db) max_missing
    = Ok (bst, mismatch, query) ->
  let st := gate2 (List.length (header db) / 2) query mismatch bst in
  let missing := count_loci (is_missing best_allele) (header db) in
  exists info,
    mlst_blast database info_arg hits max_missing ct ri am =
      Ok (label mismatch st, map (call_of best_allele) (header db), info) /\
    (info <> EmptyString ->
       info_arg = "yes" /\ dict_mem st (st_to_info db) = true) /\
    (info_arg = "yes" ->
       forall text, dict_get st (st_to_info db) = Some text ->
         info = text ++ (if ri && (0 <? missing)%nat then " (incomplete)" else "")).
Proof.
  intros L K R A st missing.
  rewrite (mlst_blast_unfold _ _ _ _ _ _ _ _ _ _ L K R). cbv zeta.
  rewrite A; cbn [bind]. fold st.
  rewrite build_profile_eq; cbn [missing_loci best_st_annotated]. fold missing.
  unfold info_column.
  destruct (String.eqb info_arg "yes") eqn:Y; cbn [andb].
  - apply String.eqb_eq in Y.
    destruct (dict_mem st (st_to_info db)) eqn:M.
    + destruct (dict_item_mem _ _ M) as [text [G I]]. rewrite I; cbn [bind].
      exists (text ++ (if ri && (0 <? missing)%nat then " (incomplete)" else "")).
      split; [|split].
      * destruct (ri && (0 <? missing)%nat); [reflexivity|].
        now rewrite append_empty_r.
      * auto.
      * intros _ text' G'. rewrite G in G'. now inversion G'.
    + exists EmptyString. split; [reflexivity|]. split; [congruence|].
      intros _ text G. unfold dict_mem in M. now rewrite G in M.
  - exists EmptyString. split; [reflexivity|]. split; [congruence|].
    intros Y'. subst info_arg. discriminate.
Qed.

Lemma info_string_spec_witness :
  exists info,
    @mlst_blast Examples.no_collaborators Examples.db2_info "yes"
      [Examples.exact_hit "gapA_1" 800] 1 false true false
      = Ok ("10-1LV", ["1"; "-"], info) /\
    (info <> EmptyString ->
       "yes" = "yes" /\ dict_mem "10" [("10", "CG10"); ("11", "CG11")] = true) /\
    ("yes" = "yes" ->
       forall text, dict_get "10" [("10", "CG10"); ("11", "CG11")] = Some text ->
         info = text ++ " (incomplete)").
Proof.
  exact (@info_string_spec Examples.no_collaborators Examples.db2_info "yes"
           [Examples.exact_hit "gapA_1" 800] 1 false true false _ _ _
           "10" 1%nat ["1"; "0"] eq_refl eq_refl eq_refl eq_refl).
Defined.

(* ================================================================== *)
(** ** The nearest-variant search *)

Lemma distance_le (xs ys : list string) (d : nat) :
  distance xs ys = Ok d -> (d <= List.length ys)%nat.
Proof.
  revert ys d; induction xs as [|x xs IH]; intros [|y ys] d; simpl; intros E;
    try (inversion E; lia).
  apply bind_ok_inv in E as [a [_ E]].
  apply bind_ok_inv in E as [b [_ E]].
  apply bind_ok_inv in E as [d' [D E]].
  inversion E; subst. apply IH in D. destruct (a =? b)%Z; lia.
Qed.

Lemma distance_total (xs ys : list string) :
  Forall (fun s => parses s = true) xs ->
  Forall (fun s => parses s = true) ys ->
  exists d, distance xs ys = Ok d.
Proof.
  intros X; revert ys; induction X as [|x xs Px _ IH]; intros ys Y.
  - exists 0%nat. now destruct ys.
  - destruct Y as [|y ys Py Y]; [now exists 0%nat|].
    simpl. unfold parses in Px, Py.
    destruct (int_of_string x) as [a|]; [|discriminate].
    destruct (int_of_string y) as [b|]; [|discriminate].
    destruct (IH ys Y) as [d ->]. simpl. eauto.
Qed.

Lemma fold_min_spec (r : list Z) (a : Z) :
  let m := fold_left Z.min r a in
  (m = a \/ In m r) /\ (m <= a)%Z /\ (forall z, In z r -> (m <= z)%Z).
Proof.
  revert a; induction r as [|b r IH]; intros a; simpl.
  - repeat split; auto; try lia; intros z [].
  - destruct (IH (Z.min a b)) as [M [L A]]. repeat split.
    + destruct M as [M|M]; [|auto]. rewrite M.
      destruct (Z.min_spec a b) as [[_ ->]|[_ ->]]; auto.
    + lia.
    + intros z [<-|I]; [lia | auto].
Qed.

Lemma py_min_spec (l : list Z) (m : Z) :
  py_min l = Ok m -> In m l /\ forall z, In z l -> (m <= z)%Z.
Proof.
  destruct l as [|a r]; simpl; [discriminate|]. intros E; inversion E; subst; clear E.
  destruct (fold_min_spec r a) as [M [L A]]. split.
  - destruct M as [->|M]; auto.
  - intros z [<-|I]; auto.
Qed.

Lemma py_min_total (l : list Z) : l <> [] -> exists m, py_min l = Ok m.
Proof. destruct l; [congruence | simpl; eauto]. Qed.

Section Search.
Variable query : list string.   (* the query, ['-'] already replaced *)

Lemma search_inv_start (n : nat) : search_inv query [] (mkSearch [] [] n).
Proof.
  constructor; simpl.
  - intros ? ? [].
  - intros z; split; [intros [] | intros [k [id [[] _]]]].
  - discriminate.
  - intros ? [].
Qed.

Lemma dict_get_set_cases {V : Type} (k k0 : string) (v v0 : V) (d : dict V) :
  dict_get k0 (dict_set k v d) = Some v0 ->
  (k0 = k /\ v0 = v) \/ (k0 <> k /\ dict_get k0 d = Some v0).
Proof.
  destruct (String.eqb_spec k0 k) as [->|N].
  - rewrite dict_get_set_same. intros E; inversion E; auto.
  - rewrite dict_get_set_other by assumption. auto.
Qed.

Lemma search_step_inv (seen : dict string) (s s' : search_state) (key id : string) :
  search_inv query seen s ->
  search_step query s (key, id) = Ok s' ->
  search_inv query (seen ++ [(key, id)])%list s'.
Proof.
  intros [Lo Cl Al Ke] E. unfold search_step in E.
  apply bind_ok_inv in E as [d [D E]]. fold (dist_to query key) in D.
  destruct (Nat.eqb_spec d (min_dist s)) as [Eq|Ne].
  - (* as close as the closest so far *)
    apply bind_ok_inv in E as [n [N E]]. inversion E; subst s'; clear E.
    constructor; cbn [min_dist closest closest_alleles].
    + intros k i I. apply in_app_iff in I as [I|[I|[]]]; [eauto|].
      inversion I; subst. exists (min_dist s). split; [assumption | lia].
    + intros z. rewrite in_app_iff, Cl. split.
      * intros [[k [i [I [Dk Ni]]]]|[<-|[]]].
        -- exists k, i. rewrite in_app_iff. auto.
        -- exists key, id. rewrite in_app_iff. subst d. simpl. auto.
      * intros [k [i [I [Dk Ni]]]]. apply in_app_iff in I as [I|[I|[]]].
        -- left. eauto.
        -- inversion I; subst. right. left. congruence.
    + intros i k G. rewrite in_app_iff.
      apply dict_get_set_cases in G as [[-> ->]|[_ G]]; simpl; auto.
    + intros z I. apply in_app_iff in I as [I|[<-|[]]].
      * destruct (Ke z I) as [i [k [G [Ni Dk]]]].
        destruct (String.eqb_spec i id) as [->|Neq].
        -- exists id, key. rewrite dict_get_set_same. subst d. auto.
        -- exists i, k. rewrite dict_get_set_other by assumption. auto.
      * exists id, key. rewrite dict_get_set_same. subst d. auto.
  - destruct (Nat.ltb_spec d (min_dist s)) as [Lt|Ge].
    + (* strictly closer: reset *)
      apply bind_ok_inv in E as [n [N E]]. inversion E; subst s'; clear E.
      constructor; cbn [min_dist closest closest_alleles].
      * intros k i I. apply in_app_iff in I as [I|[I|[]]].
        -- destruct (Lo k i I) as [d' [Dk Le]]. exists d'. split; [assumption | lia].
        -- inversion I; subst. exists d. split; [assumption | lia].
      * intros z. split.
        -- intros [<-|[]]. exists key, id. rewrite in_app_iff. simpl. auto.
        -- intros [k [i [I [Dk Ni]]]]. apply in_app_iff in I as [I|[I|[]]].
           ++ destruct (Lo k i I) as [d' [Dk' Le]]. rewrite Dk in Dk'.
              inversion Dk'. lia.
           ++ inversion I; subst. left. congruence.
      * intros i k G. rewrite in_app_iff.
        apply dict_get_set_cases in G as [[-> ->]|[_ G]]; simpl; auto.
      * intros z [<-|[]]. exists id, key. rewrite dict_get_set_same. auto.
    + (* farther: skipped *)
      inversion E; subst s'; clear E.
      constructor.
      * intros k i I. apply in_app_iff in I as [I|[I|[]]]; [eauto|].
        inversion I; subst. exists d. split; [assumption | lia].
      * intros z. rewrite Cl. split.
        -- intros [k [i [I R]]]. exists k, i. rewrite in_app_iff. auto.
        -- intros [k [i [I [Dk Ni]]]]. apply in_app_iff in I as [I|[I|[]]]; [eauto|].
           inversion I; subst. rewrite Dk in D. inversion D. lia.
      * intros i k G. rewrite in_app_iff. auto.
      * assumption.
Qed.

Lemma search_loop_inv (todo seen : dict string) (s s' : search_state) :
  search_inv query seen s ->
  loop (search_step query) todo s = Ok s' ->
  search_inv query (seen ++ todo)%list s'.
Proof.
  revert seen s; induction todo as [|[key id] todo IH]; intros seen s I E; simpl in E.
  - inversion E; subst. now rewrite app_nil_r.
  - apply bind_ok_inv in E as [s1 [S1 E]].
    replace (seen ++ (key, id) :: todo)%list with ((seen ++ [(key, id)]) ++ todo)%list
      by (now rewrite <- app_assoc).
    eapply IH; [|eassumption]. eapply search_step_inv; eassumption.
Qed.

End Search.

Lemma wf_sts_item (sts : dict string) (key id : string) :
  wf_sts sts = true -> In (key, id) sts ->
  Forall (fun s => parses s = true) (split_char "," key) /\ canonical id = true.
Proof.
  unfold wf_sts. rewrite forallb_forall. intros W I.
  specialize (W _ I). simpl in W. apply andb_true_iff in W as [P C].
  split; [|assumption]. apply Forall_forall. now apply forallb_forall.
Qed.

Lemma canonical_spec (id : string) :
  canonical id = true -> exists z, int_of_string id = Ok z /\ str_of_int z = id.
Proof.
  unfold canonical. destruct (int_of_string id) as [z|]; [|discriminate].
  intros E. apply String.eqb_eq in E. eauto.
Qed.

Section SearchTotal.
Variable query : list string.
Hypothesis query_parses : forallb parses query = true.

Lemma search_step_total (sts : dict string) (s : search_state) (key id : string) :
  wf_sts sts = true -> In (key, id) sts ->
  exists s', search_step query s (key, id) = Ok s'.
Proof.
  intros W I. destruct (wf_sts_item _ _ _ W I) as [P C].
  destruct (canonical_spec _ C) as [z [Z _]].
  assert (Q : Forall (fun s => parses s = true) query)
    by (apply Forall_forall; now apply forallb_forall).
  destruct (distance_total _ _ P Q) as [d D].
  unfold search_step. rewrite D; cbn [bind]. rewrite Z; cbn [bind].
  destruct (d =? min_dist s)%nat; [eauto|]. destruct (d <? min_dist s)%nat; eauto.
Qed.

Lemma search_loop_total (sts todo : dict string) (s : search_state) :
  wf_sts sts = true -> incl todo sts ->
  exists s', loop (search_step query) todo s = Ok s'.
Proof.
  intros W. revert s; induction todo as [|[key id] todo IH]; intros s I; cbn [loop]; [eauto|].
  destruct (search_step_total sts s key id W) as [s1 ->]; [apply I; now left|].
  cbn [bind]. apply IH. intros x X. apply I. now right.
Qed.

Lemma search_step_closest (s s' : search_state) (item : string * string) :
  search_started query s -> search_step query s item = Ok s' -> closest s' <> [].
Proof.
  intros J E. destruct item as [key id]. unfold search_step in E.
  apply bind_ok_inv in E as [d [D E]]. pose proof (distance_le _ _ _ D) as Le.
  destruct (Nat.eqb_spec d (min_dist s)) as [Eq|Ne].
  - apply bind_ok_inv in E as [n [_ E]]. inversion E; simpl.
    intros C. now apply app_eq_nil in C as [_ C].
  - destruct (Nat.ltb_spec d (min_dist s)) as [Lt|Ge].
    + apply bind_ok_inv in E as [n [_ E]]. inversion E; simpl. discriminate.
    + inversion E; subst s'. destruct J as [J|J]; [assumption | lia].
Qed.

Lemma search_loop_closest (todo : dict string) (s s' : search_state) :
  closest s <> [] -> loop (search_step query) todo s = Ok s' -> closest s' <> [].
Proof.
  revert s; induction todo as [|item todo IH]; intros s C E; simpl in E.
  - now inversion E; subst.
  - apply bind_ok_inv in E as [s1 [S1 E]]. eapply IH; [|eassumption].
    eapply search_step_closest; [left|]; eassumption.
Qed.

End SearchTotal.

Lemma get_closest_spec (query annotated : list string) (sts : dict string)
    (q : list string) (st : string) (md mm : nat) :
  get_closest_locus_variant query annotated sts = Ok (q, (st, md, mm)) ->
  q = map zero_missing query /\
  (exists key id z,
     In (key, id) sts /\ int_of_string id = Ok z /\ st = str_of_int z /\
     dist_to q key = Ok md /\
     (forall key' id', In (key', id') sts ->
        exists d', dist_to q key' = Ok d' /\ (md <= d')%nat) /\
     (forall key' id' z', In (key', id') sts -> dist_to q key' = Ok md ->
        int_of_string id' = Ok z' -> (z <= z')%Z)) /\
  (exists profile,
     In (profile, st) sts /\
     distance (split_char "," profile) (map zero_inexact annotated) = Ok mm).
Proof.
  intros E. pose proof (get_closest_query _ _ _ _ _ E) as ->.
  split; [reflexivity|]. unfold get_closest_locus_variant in E.
  apply bind_ok_inv in E as [s [S E]].
  apply bind_ok_inv in E as [m [M E]].
  apply bind_ok_inv in E as [pr [P E]].
  apply bind_ok_inv in E as [d [D E]].
  inversion E; subst st md mm; clear E.
  apply (search_loop_inv _ _ [] _ _ (search_inv_start _ _)) in S. simpl in S.
  destruct S as [Lo Cl Al Ke].
  apply py_min_spec in M as [Mi Mn]. split.
  - apply Cl in Mi as [key [id [I [Dk Z]]]]. exists key, id, m.
    repeat split; auto.
    intros key' id' z' I' D' Z'. apply Mn. apply Cl. eauto.
  - exists pr. split; [|assumption]. apply Al.
    unfold dict_item in P. destruct (dict_get _ _) as [v|]; [|discriminate].
    now inversion P.
Qed.

Lemma get_closest_total (query annotated : list string) (sts : dict string) :
  (0 < List.length sts)%nat ->
  wf_sts sts = true ->
  forallb parses (map zero_missing query) = true ->
  forallb parses (map zero_inexact annotated) = true ->
  exists r, get_closest_locus_variant query annotated sts = Ok r.
Proof.
  intros N W Q A. unfold get_closest_locus_variant.
  destruct (search_loop_total _ Q sts sts (mkSearch [] [] (List.length query)) W
              (incl_refl _)) as [s S].
  rewrite S; cbn [bind].
  assert (C : closest s <> []).
  { destruct sts as [|item todo]; [simpl in N; lia|]. simpl in S.
    apply bind_ok_inv in S as [s1 [S1 S]].
    eapply search_loop_closest; [|eassumption].
    eapply search_step_closest; [|eassumption].
    right. simpl. now rewrite zero_missing_length. }
  destruct (py_min_total _ C) as [m M]. rewrite M; cbn [bind].
  apply py_min_spec in M as [Mi _].
  apply (search_loop_inv _ _ [] _ _ (search_inv_start _ _)) in S. simpl in S.
  destruct S as [Lo Cl Al Ke].
  destruct (Ke _ Mi) as [id [key [G [Z _]]]].
  pose proof (Al _ _ G) as I.
  destruct (wf_sts_item _ _ _ W I) as [P Can].
  destruct (canonical_spec _ Can) as [z [Z' Str]].
  rewrite Z in Z'. inversion Z'; subst z. rewrite Str.
  unfold dict_item. rewrite G; cbn [bind].
  assert (A' : Forall (fun s => parses s = true) (map zero_inexact annotated))
    by (apply Forall_forall; now apply forallb_forall).
  destruct (distance_total _ _ P A') as [d ->]. cbn [bind]. eauto.
Qed.

(* ================================================================== *)
(** ** The markers of a call *)

Lemma append_assoc (a b c : string) : (a ++ b) ++ c = a ++ b ++ c.
Proof. induction a as [|x a IH]; simpl; [reflexivity | now rewrite IH]. Qed.

Lemma remove_char_app (c : ascii) (a b : string) :
  remove_char c (a ++ b) = remove_char c a ++ remove_char c b.
Proof.
  induction a as [|x a IH]; simpl; [reflexivity|].
  destruct (Ascii.eqb x c); simpl; now rewrite IH.
Qed.

Lemma re_sub_plain (n t : string) :
  contains_char "-" n = false ->
  re_sub_scan None (n ++ t) = n ++ re_sub_scan None t.
Proof.
  induction n as [|a n IH]; simpl; [reflexivity|].
  destruct (Ascii.eqb a "-"); simpl; [discriminate|]. intros N. now rewrite IH.
Qed.

Lemma re_sub_pending_digits (ds p t : string) :
  all_digits ds = true ->
  re_sub_scan (Some p) (ds ++ t) = re_sub_scan (Some (p ++ ds)) t.
Proof.
  revert p; induction ds as [|a ds IH]; intros p D; simpl.
  - now rewrite append_empty_r.
  - simpl in D. apply andb_true_iff in D as [Da D]. rewrite Da, (IH _ D).
    now rewrite append_assoc.
Qed.

Lemma re_sub_tag (ds t : string) :
  all_digits ds = true -> ds <> EmptyString ->
  re_sub_scan None ("-" ++ ds ++ "%" ++ t) = re_sub_scan None t.
Proof.
  intros D N. cbn [append re_sub_scan Ascii.eqb Bool.eqb].
  rewrite (re_sub_pending_digits _ _ _ D). cbn [append re_sub_scan].
  destruct ds as [|a ds]; [congruence|]. reflexivity.
Qed.

Lemma digit_is_not (a c : ascii) :
  is_digit a = true -> is_digit c = false -> Ascii.eqb a c = false.
Proof.
  intros A C. destruct (Ascii.eqb_spec a c) as [->|]; [congruence | reflexivity].
Qed.

Lemma all_digits_without (c : ascii) (ds : string) :
  is_digit c = false -> all_digits ds = true -> contains_char c ds = false.
Proof.
  intros C. induction ds as [|a ds IH]; simpl; [reflexivity|]. intros D.
  apply andb_true_iff in D as [Da D]. now rewrite (digit_is_not _ _ Da C), IH.
Qed.

Lemma tag_removed (tag : string) :
  is_truncation_tag tag -> re_sub_truncation tag = EmptyString /\ contains_char "*" tag = false.
Proof.
  intros [ds [D [N ->]]]. split.
  - unfold re_sub_truncation.
    replace ("-" ++ ds ++ "%") with ("-" ++ ds ++ "%" ++ EmptyString) by reflexivity.
    now rewrite re_sub_tag.
  - cbn [append contains_char Ascii.eqb Bool.eqb orb].
    assert (S : forall s, contains_char "*" (s ++ "%") = contains_char "*" s).
    { induction s as [|a s IH]; simpl; [reflexivity | now rewrite IH]. }
    rewrite S. now apply all_digits_without.
Qed.

(* ================================================================== *)
(** ** The search against the distance of the specification *)

Lemma differing_positions_cons (a b : Z) (xs ys : list Z) :
  differing_positions (a :: xs) (b :: ys) =
  ((if (a =? b)%Z then 0 else 1) + differing_positions xs ys)%nat.
Proof.
  unfold differing_positions. cbn [combine filter fst snd].
  now destruct (a =? b)%Z.
Qed.

Lemma read_all_cons (read : string -> option Z) (s : string) (r : list string)
    (zs : list Z) :
  read_all read (s :: r) = Some zs ->
  exists z zs', read s = Some z /\ read_all read r = Some zs' /\ zs = z :: zs'.
Proof.
  cbn [read_all]. destruct (read s) as [z|]; [|discriminate].
  destruct (read_all read r) as [zs'|]; [|discriminate].
  intros E; inversion E; eauto.
Qed.

Lemma read_all_map (read : string -> option Z) (f : string -> string) (l : list string)
    (zs : list Z) :
  (forall s z, read s = Some z -> read_int (f s) = Some z) ->
  read_all read l = Some zs -> read_ints (map f l) = Some zs.
Proof.
  intros F. revert zs; induction l as [|s l IH]; intros zs E; [exact E|].
  apply read_all_cons in E as [z [zs' [S [R ->]]]].
  unfold read_ints in *. cbn [map read_all]. now rewrite (F _ _ S), (IH _ R).
Qed.

Lemma read_ints_parses (l : list string) (zs : list Z) :
  read_ints l = Some zs -> forallb parses l = true.
Proof.
  revert zs; induction l as [|s l IH]; intros zs E; [reflexivity|].
  apply read_all_cons in E as [z [zs' [S [R _]]]]. simpl.
  rewrite (IH _ R), andb_true_r. unfold parses. unfold read_int in S.
  now destruct (int_of_string s).
Qed.

(** The query the first search compares is the query of the specification. *)
Lemma zero_missing_read (s : string) (z : Z) :
  read_query_entry s = Some z -> read_int (zero_missing s) = Some z.
Proof.
  unfold read_query_entry, zero_missing. destruct (String.eqb s "-"); [|auto].
  intros E; inversion E. reflexivity.
Qed.

Lemma digits_percent_tag (r : string) (seen : bool) :
  digits_percent seen r = true ->
  exists ds, all_digits ds = true /\ r = ds ++ "%" /\ (seen = false -> ds <> EmptyString).
Proof.
  revert seen; induction r as [|a r IH]; intros seen; simpl; [discriminate|].
  destruct (is_digit a) eqn:D.
  - intros E. destruct (IH _ E) as [ds [A [-> _]]].
    exists (String a ds). simpl. rewrite D, A. repeat split. discriminate.
  - intros E. apply andb_true_iff in E as [E ->]. apply andb_true_iff in E as [P R].
    apply Ascii.eqb_eq in P; subst a. destruct r; [|discriminate].
    exists EmptyString. repeat split. discriminate.
Qed.

Lemma is_tag_truncation_tag (t : string) : is_tag t = true -> is_truncation_tag t.
Proof.
  destruct t as [|a r]; simpl; [discriminate|]. intros E.
  apply andb_true_iff in E as [A D]. apply Ascii.eqb_eq in A; subst a.
  destruct (digits_percent_tag _ _ D) as [ds [Dg [-> N]]].
  exists ds. repeat split; auto.
Qed.

Lemma before_from_dash (s : string) :
  s = before_dash s ++ from_dash s /\ contains_char "-" (before_dash s) = false.
Proof.
  induction s as [|a s [E C]]; simpl; [auto|].
  destruct (Ascii.eqb a "-") eqn:A; simpl; [auto|].
  rewrite A, C. split; [now rewrite <- E | reflexivity].
Qed.

(** Removing the pattern [-\d+%] from a call that ends in at most one tag
    leaves the text before the tag. *)
Lemma re_sub_before_dash (call : string) :
  is_empty (from_dash call) || is_tag (from_dash call) = true ->
  re_sub_truncation call = before_dash call.
Proof.
  intros T. destruct (before_from_dash call) as [E C].
  unfold re_sub_truncation. rewrite E at 1. rewrite (re_sub_plain _ _ C).
  apply orb_true_iff in T as [T|T].
  - destruct (from_dash call); [|discriminate]. simpl. apply append_empty_r.
  - apply is_tag_truncation_tag, tag_removed in T as [T _].
    unfold re_sub_truncation in T. rewrite T. apply append_empty_r.
Qed.

(** The annotated query the second search compares is the one of the
    specification. *)
Lemma zero_inexact_read (call : string) (z : Z) :
  read_call call = Some z -> read_int (zero_inexact call) = Some z.
Proof.
  unfold read_call, zero_inexact.
  destruct (String.eqb call "-" || contains_char "*" call).
  - intros E; inversion E. reflexivity.
  - destruct (is_empty (from_dash call) || is_tag (from_dash call)) eqn:T; [|discriminate].
    now rewrite (re_sub_before_dash _ T).
Qed.

Lemma before_dash_not_missing (s : string) : String.eqb (before_dash s) "-" = false.
Proof.
  destruct s as [|a s]; [reflexivity|]. simpl.
  destruct (Ascii.eqb_spec a "-") as [->|N]; [reflexivity|].
  apply String.eqb_neq. intros E. inversion E; congruence.
Qed.

(** The allele number lines 59-60 take from a call is the one of the
    specification. *)
Lemma allele_number_read (call : string) (z : Z) :
  read_number call = Some z -> read_query_entry (allele_number call) = Some z.
Proof.
  unfold read_number, allele_number.
  destruct (String.eqb_spec call "-") as [->|_]; [intros E; inversion E; reflexivity|].
  destruct (is_empty (from_dash (remove_char "*" call))
            || is_tag (from_dash (remove_char "*" call))) eqn:T; [|discriminate].
  rewrite (re_sub_before_dash _ T). unfold read_query_entry.
  now rewrite before_dash_not_missing.
Qed.

Lemma number_of_call (best_allele : dict string) (locus : string) :
  number_of best_allele locus = allele_number (call_of best_allele locus).
Proof.
  unfold number_of, call_of. now destruct (dict_get locus best_allele).
Qed.

Lemma best_st_read (hdr : list string) (best_allele : dict string) (qz : list Z) :
  read_numbers (best_st_annotated (build_profile hdr best_allele)) = Some qz ->
  read_query (best_st (build_profile hdr best_allele)) = Some qz.
Proof.
  rewrite build_profile_eq. cbn [best_st best_st_annotated].
  unfold read_numbers, read_query.
  revert qz; induction hdr as [|l hdr IH]; intros qz E; [exact E|].
  cbn [map] in *. apply read_all_cons in E as [z [zs [R [Rs ->]]]].
  cbn [read_all]. rewrite number_of_call, (allele_number_read _ _ R), (IH _ Rs).
  reflexivity.
Qed.

(** The code's count is the number of differing positions. *)
Lemma distance_differing (xs ys : list string) (yz : list Z) :
  read_ints ys = Some yz ->
  match distance xs ys with
  | Ok d =>
      option_map (fun xz => differing_positions xz yz)
                 (read_ints (firstn (List.length yz) xs)) = Some d
  | Err _ => read_ints (firstn (List.length yz) xs) = None
  end.
Proof.
  revert ys yz; induction xs as [|x xs IH]; intros ys yz R.
  - rewrite firstn_nil. now destruct ys.
  - destruct ys as [|y ys]; [now inversion R|].
    apply read_all_cons in R as [b [yz' [Y [R ->]]]].
    cbn [distance List.length firstn]. unfold read_ints in *. cbn [read_all].
    assert (Y' : int_of_string y = Ok b)
      by (unfold read_int in Y; destruct (int_of_string y); congruence).
    rewrite Y'.
    assert (X : read_int x = match int_of_string x with Ok a => Some a | Err _ => None end)
      by reflexivity.
    rewrite X. destruct (int_of_string x) as [a|e]; cbn [bind]; [|reflexivity].
    specialize (IH _ _ R).
    destruct (distance xs ys) as [d|e]; cbn [bind].
    + destruct (read_all read_int (firstn (List.length yz') xs)) as [xz|]; [|discriminate].
      simpl in IH. inversion IH; subst d. simpl option_map.
      now rewrite differing_positions_cons.
    + now rewrite IH.
Qed.

Lemma dist_to_profile_distance (query : list string) (qz : list Z) (key : string)
    (d : nat) :
  read_ints query = Some qz ->
  dist_to query key = Ok d <-> profile_distance key qz = Some d.
Proof.
  intros R. unfold dist_to, profile_distance.
  pose proof (distance_differing (split_char "," key) _ _ R) as D.
  destruct (distance (split_char "," key) query) as [d'|e].
  - rewrite D. split; intros E; inversion E; reflexivity.
  - rewrite D. split; discriminate.
Qed.

(** C3.  When the first gate passes and the joined query has no exact key,
    the ST the matcher assigns is a registered ST whose profile differs from
    the query in the fewest positions, the query read with [0] for each
    ['-'] and both sides as integers, and among the STs at that number of
    differing positions it is the numerically smallest; the list the search
    leaves reads as the same integers; and on a non-empty well-formed table
    the search returns. *)
Theorem nearest_variant_minimal (p : profile) (sts : dict string) (max_missing : Z)
    (qz : list Z) :
  (Z.of_nat (mismatch_loci_including_snps p) <= max_missing)%Z ->
  dict_mem (join "," (best_st p)) sts = false ->
  read_query (best_st p) = Some qz ->
  (forall bst mismatch query,
     assign_st p sts max_missing = Ok (bst, mismatch, query) ->
     read_ints query = Some qz /\
     exists key id z d,
       In (key, id) sts /\ int_of_string id = Ok z /\ bst = str_of_int z /\
       profile_distance key qz = Some d /\
       (forall key' id', In (key', id') sts ->
          exists d', profile_distance key' qz = Some d' /\ (d <= d')%nat) /\
       (forall key' id' z', In (key', id') sts -> profile_distance key' qz = Some d ->
          int_of_string id' = Ok z' -> (z <= z')%Z)) /\
  (forall az,
     (0 < List.length sts)%nat ->
     wf_sts sts = true ->
     read_calls (best_st_annotated p) = Some az ->
     exists r, assign_st p sts max_missing = Ok r).
Proof.
  intros G M Q.
  assert (Qi : read_ints (map zero_missing (best_st p)) = Some qz)
    by (apply (read_all_map read_query_entry); [apply zero_missing_read | exact Q]).
  unfold assign_st. rewrite M.
  destruct (Z.leb_spec (Z.of_nat (mismatch_loci_including_snps p)) max_missing); [|lia].
  split.
  - intros bst mismatch query E.
    apply bind_ok_inv in E as [[q' [[st md] mm]] [C E]]. inversion E; subst; clear E.
    apply get_closest_spec in C as [-> [[key [id [z [I [Z [S [D [Lo Mn]]]]]]]] _]].
    split; [exact Qi|].
    exists key, id, z, md. repeat split; try assumption.
    + now apply (dist_to_profile_distance _ _ _ _ Qi).
    + intros key' id' I'. destruct (Lo _ _ I') as [d' [D' Le]].
      exists d'. split; [now apply (dist_to_profile_distance _ _ _ _ Qi) | exact Le].
    + intros key' id' z' I' D' Z'.
      apply (Mn _ _ _ I'); [|exact Z'].
      now apply (dist_to_profile_distance _ _ _ _ Qi).
  - intros az N W A.
    assert (Ai : read_ints (map zero_inexact (best_st_annotated p)) = Some az)
      by (apply (read_all_map read_call); [apply zero_inexact_read | exact A]).
    destruct (get_closest_total _ _ _ N W (read_ints_parses _ _ Qi) (read_ints_parses _ _ Ai))
      as [[q' [[st md] mm]] ->].
    cbn [bind]. eauto.
Qed.

(** The query [1,-,5] is read as [1,0,5]: STs 10 and 7 differ from it in
    two positions, ST 3 in three, and ST 7 is assigned. *)
Lemma nearest_variant_minimal_witness :
  (read_ints ["1"; "0"; "5"] = Some [1; 0; 5] /\
   exists key id z d,
     In (key, id) [("1,2,3", "10"); ("1,2,4", "7"); ("9,9,9", "3")] /\
     int_of_string id = Ok z /\ "7" = str_of_int z /\
     profile_distance key [1; 0; 5] = Some d /\
     (forall key' id',
        In (key', id') [("1,2,3", "10"); ("1,2,4", "7"); ("9,9,9", "3")] ->
        exists d', profile_distance key' [1; 0; 5] = Some d' /\ (d <= d')%nat) /\
     (forall key' id' z',
        In (key', id') [("1,2,3", "10"); ("1,2,4", "7"); ("9,9,9", "3")] ->
        profile_distance key' [1; 0; 5] = Some d ->
        int_of_string id' = Ok z' -> (z <= z')%Z)) /\
  exists r,
    assign_st (mkProfile ["1"; "-"; "5"] ["1"; "-"; "5"] 1 1)
      [("1,2,3", "10"); ("1,2,4", "7"); ("9,9,9", "3")] 3 = Ok r.
Proof.
  assert (G : (Z.of_nat 1 <= 3)%Z) by (simpl; lia).
  destruct (nearest_variant_minimal
              (mkProfile ["1"; "-"; "5"] ["1"; "-"; "5"] 1 1)
              [("1,2,3", "10"); ("1,2,4", "7"); ("9,9,9", "3")] 3 [1; 0; 5]
              G eq_refl eq_refl) as [A B].
  split.
  - exact (A "7" 2%nat ["1"; "0"; "5"] eq_refl).
  - apply (B [1; 0; 5]); [simpl; lia | reflexivity | reflexivity].
Defined.

(* ================================================================== *)
(** ** Loop and dictionary invariants *)

Lemma loop_preserves_in {A S : Type} (P : S -> Prop) (body : S -> A -> result S)
    (l : list A) :
  (forall s a s', In a l -> P s -> body s a = Ok s' -> P s') ->
  forall s s', P s -> loop body l s = Ok s' -> P s'.
Proof.
  induction l as [|a l IH]; intros Step s s' Ps E; simpl in E.
  - now inversion E; subst.
  - apply bind_ok_inv in E as [s1 [S1 E]].
    apply (IH (fun s a' s' I => Step s a' s' (or_intror I)) s1 s'); [|assumption].
    apply (Step s a s1); auto. now left.
Qed.

Lemma loop_preserves {A S : Type} (P : S -> Prop) (body : S -> A -> result S) :
  (forall s a s', P s -> body s a = Ok s' -> P s') ->
  forall l s s', P s -> loop body l s = Ok s' -> P s'.
Proof.
  intros Step l. apply loop_preserves_in. intros s a s' _. apply Step.
Qed.

Lemma loop_app {A S : Type} (body : S -> A -> result S) (l1 l2 : list A) (s : S) :
  loop body (l1 ++ l2) s = (s1 <- loop body l1 s ;; loop body l2 s1).
Proof.
  revert s; induction l1 as [|a l1 IH]; intros s; simpl; [reflexivity|].
  destruct (body s a) as [s1|e]; simpl; auto.
Qed.

Lemma dict_set_key_in {V : Type} (k x : string) (v : V) (d : dict V) :
  In x (map fst (dict_set k v d)) -> x = k \/ In x (map fst d).
Proof.
  induction d as [|[k' v'] d IH]; simpl.
  - intros [<-|[]]; auto.
  - destruct (String.eqb k k'); simpl; [auto|]. intros [<-|I]; auto.
    destruct (IH I); auto.
Qed.

Lemma dict_set_wf {V : Type} (k : string) (v : V) (d : dict V) :
  dict_wf d -> dict_wf (dict_set k v d).
Proof.
  unfold dict_wf. induction d as [|[k' v'] d IH]; simpl; intros W.
  - constructor; [intros [] | constructor].
  - inversion W as [|? ? Nin W']; subst.
    destruct (String.eqb_spec k k') as [->|N]; simpl; [assumption|].
    constructor; [|auto]. intros I. apply dict_set_key_in in I as [->|I]; auto.
Qed.

Lemma dict_get_in {V : Type} (k : string) (v : V) (d : dict V) :
  dict_get k d = Some v -> In (k, v) d.
Proof.
  induction d as [|[k' v'] d IH]; simpl; [discriminate|].
  destruct (String.eqb_spec k k') as [->|N]; [|auto].
  intros E; inversion E; auto.
Qed.

Lemma dict_in_get {V : Type} (k : string) (v : V) (d : dict V) :
  dict_wf d -> In (k, v) d -> dict_get k d = Some v.
Proof.
  unfold dict_wf. induction d as [|[k' v'] d IH]; simpl; intros W I; [destruct I|].
  inversion W as [|? ? Nin W']; subst.
  destruct I as [I|I].
  - inversion I; subst. now rewrite String.eqb_refl.
  - destruct (String.eqb_spec k k') as [->|N]; [|auto].
    exfalso. apply Nin. change k' with (fst (k', v)). now apply in_map.
Qed.

Lemma load_line_wf (info_arg : string) (db db' : st_database) (line : string) :
  dict_wf (alleles_to_st db) -> load_line info_arg db line = Ok db' ->
  dict_wf (alleles_to_st db').
Proof.
  intros W E. unfold load_line in E.
  destruct (List.length (header db) =? 0)%nat.
  - apply bind_ok_inv in E as [[x hdr] [_ E]].
    apply bind_ok_inv in E as [hdr' [_ E]]. now inversion E; subst.
  - apply bind_ok_inv in E as [[[st info] fields] [_ E]].
    inversion E; subst; simpl. now apply dict_set_wf.
Qed.

Lemma load_st_database_wf (database : list string) (info_arg : string) (db : st_database) :
  load_st_database database info_arg = Ok db -> dict_wf (alleles_to_st db).
Proof.
  unfold load_st_database.
  apply (loop_preserves (fun db => dict_wf (alleles_to_st db))).
  - intros s a s'. apply load_line_wf.
  - constructor.
Qed.

(** C4.  When the nearest-variant search runs, on a non-empty well-formed
    table and calls that can be read, it returns, and the mismatch count it
    leaves is the number of positions in which a profile registered for the
    winning ST differs from the annotated calls, the calls read with their
    truncation tag removed and with [0] for ['-'] and for a call with
    ['*'], both sides as integers; the label carries [-<n>LV], [n] that
    count, exactly when the count is positive and the ST left by the second
    gate is not ["0"]. *)
Theorem lv_suffix_spec `{Collaborators} (database : list string) (info_arg : string)
    (max_missing : Z) (ri : bool) (db : st_database) (best_allele : dict string)
    (qz az : list Z) :
  load_st_database database info_arg = Ok db ->
  let p := build_profile (header db) best_allele in
  (Z.of_nat (mismatch_loci_including_snps p) <= max_missing)%Z ->
  dict_mem (join "," (best_st p)) (alleles_to_st db) = false ->
  (0 < List.length (alleles_to_st db))%nat ->
  wf_sts (alleles_to_st db) = true ->
  read_numbers (best_st_annotated p) = Some qz ->
  read_calls (best_st_annotated p) = Some az ->
  exists q st md n registered lbl info,
    get_closest_locus_variant (best_st p) (best_st_annotated p) (alleles_to_st db)
      = Ok (q, (st, md, n)) /\
    assign_st p (alleles_to_st db) max_missing = Ok (st, n, q) /\
    dict_get registered (alleles_to_st db) = Some st /\
    profile_distance registered az = Some n /\
    assign_and_report info_arg max_missing ri db best_allele
      = Ok (lbl, best_st_annotated p, info) /\
    (let loci := List.length (header db) in
     let bst :=
       if (Z.of_nat loci - Z.of_nat n <? Z.of_nat (loci / 2))%Z then "0" else st in
     ((0 < n)%nat /\ bst <> "0" -> lbl = bst ++ "-" ++ str_of_int (Z.of_nat n) ++ "LV") /\
     (n = 0%nat \/ bst = "0" -> lbl = bst)) /\
    (forall hits ct am kept,
       (if negb am then keep_only_one_hit_per_locus hits else Ok hits) = Ok kept ->
       get_best_allele_per_locus kept ct = Ok best_allele ->
       mlst_blast database info_arg hits max_missing ct ri am
         = Ok (lbl, best_st_annotated p, info)).
Proof.
  intros L p G M N W Q A.
  assert (Qi : read_ints (map zero_missing (best_st p)) = Some qz)
    by (apply (read_all_map read_query_entry);
        [apply zero_missing_read | now apply best_st_read]).
  assert (Ai : read_ints (map zero_inexact (best_st_annotated p)) = Some az)
    by (apply (read_all_map read_call); [apply zero_inexact_read | exact A]).
  destruct (get_closest_total _ _ _ N W (read_ints_parses _ _ Qi) (read_ints_parses _ _ Ai))
    as [[q [[st md] n]] C].
  assert (As : assign_st p (alleles_to_st db) max_missing = Ok (st, n, q)).
  { unfold assign_st. rewrite M, C.
    destruct (Z.leb_spec (Z.of_nat (mismatch_loci_including_snps p)) max_missing);
      [reflexivity | lia]. }
  destruct (get_closest_spec _ _ _ _ _ _ _ C) as [_ [_ [registered [I D]]]].
  set (bst := if (Z.of_nat (List.length (header db)) - Z.of_nat n
                  <? Z.of_nat (List.length (header db) / 2))%Z then "0" else st).
  destruct (info_column_total info_arg (st_to_info db) ri (missing_loci p) bst)
    as [info Inf].
  assert (R : assign_and_report info_arg max_missing ri db best_allele
              = Ok (label n bst, best_st_annotated p, info)).
  { unfold assign_and_report. fold p. rewrite As; cbn [bind].
    replace (gate2 (List.length (header db) / 2) q n st) with bst.
    2:{ unfold gate2, bst.
        rewrite (assign_st_query_length _ _ _ _ _ _ As). unfold p.
        now rewrite best_st_length. }
    now rewrite Inf. }
  exists q, st, md, n, registered, (label n bst), info.
  split; [exact C|]. split; [exact As|]. split; [|split; [|split; [exact R|split]]].
  - apply dict_in_get; [|assumption]. eapply load_st_database_wf; eassumption.
  - now apply (dist_to_profile_distance _ _ _ _ Ai).
  - cbv zeta. fold bst. split.
    + intros [Pos Nz]. unfold label.
      destruct (Nat.ltb_spec 0 n); [|lia].
      apply String.eqb_neq in Nz. now rewrite Nz.
    + intros [-> | ->]; [reflexivity | apply label_zero].
  - intros hits ct am kept K Rs.
    rewrite (mlst_blast_unfold _ _ _ _ _ _ _ _ _ _ L K Rs). exact R.
Qed.

(** The inexact [infB] call reads as [0] and the truncated [mdh] call as
    [4]: the calls differ from the profile [1,2,3] of ST 10 in two
    positions.  Hits that give these calls without the truncation check:
    the third allele is named with the tag. *)
Lemma lv_suffix_spec_witness :
  profile_distance "1,2,3" [1; 0; 4] = Some 2%nat /\
  exists info,
    assign_and_report "no" 3 false Examples.table3 Examples.tagged_calls
      = Ok ("10-2LV", ["1"; "2*"; "4-70%"], info) /\
    @mlst_blast Examples.no_collaborators Examples.db3 "no"
      [Examples.exact_hit "gapA_1" 800; Examples.inexact_hit "infB_2" 790;
       Examples.exact_hit "mdh_4-70%" 800] 3 false false false
      = Ok ("10-2LV", ["1"; "2*"; "4-70%"], info).
Proof.
  assert (G : (Z.of_nat 1 <= 3)%Z) by (simpl; lia).
  assert (N : (0 < 1)%nat) by lia.
  destruct (@lv_suffix_spec Examples.no_collaborators Examples.db3 "no" 3 false
              Examples.table3 Examples.tagged_calls [1; 2; 4] [1; 0; 4]
              eq_refl G eq_refl N eq_refl eq_refl eq_refl)
    as [q [st [md [n [registered [lbl [info [C [_ [Rg [D [R [Lb M]]]]]]]]]]]]].
  vm_compute in C. injection C as Eq Es Em En. subst q st md n.
  unfold Examples.table3 in Rg. cbn [alleles_to_st dict_get] in Rg.
  destruct (String.eqb_spec registered "1,2,3") as [->|_]; [|discriminate].
  assert (E : lbl = "10-2LV") by (apply (proj1 Lb); split; [lia | discriminate]).
  subst lbl. split; [exact D|].
  exists info. split; [exact R|].
  exact (M [Examples.exact_hit "gapA_1" 800; Examples.inexact_hit "infB_2" 790;
            Examples.exact_hit "mdh_4-70%" 800] false false _ eq_refl eq_refl).
Defined.

(* ================================================================== *)
(** ** Looking up a registered profile *)

Lemma remove_char_absent (c : ascii) (s : string) :
  contains_char c s = false -> remove_char c s = s.
Proof.
  induction s as [|a s IH]; simpl; [reflexivity|].
  destruct (Ascii.eqb a c); simpl; [discriminate|]. intros E. now rewrite IH.
Qed.

Lemma load_line_row (info_arg : string) (db : st_database) (line : string) :
  (0 < List.length (header db))%nat ->
  load_line info_arg db line =
  ('(st, info, fields) <- row_of info_arg line ;;
   Ok (mkDb (st_names db ++ [st])%list
            (dict_set (join "," fields) st (alleles_to_st db))
            (if String.eqb info_arg "yes"
             then dict_set st info (st_to_info db)
             else st_to_info db)
            (header db))).
Proof.
  intros N. unfold load_line, row_of.
  destruct (Nat.eqb_spec (List.length (header db)) 0); [lia | reflexivity].
Qed.






(* ================================================================== *)
(** ** The allele resolver *)

Lemma split_char_absent (c : ascii) (s : string) :
  contains_char c s = false -> split_char c s = [s].
Proof.
  induction s as [|a s IH]; simpl; [reflexivity|].
  destruct (Ascii.eqb a c); simpl; [discriminate|]. intros E. now rewrite IH.
Qed.

Lemma split_char_nonempty (c : ascii) (s : string) :
  exists a rest, split_char c s = a :: rest.
Proof.
  induction s as [|x s [a [rest IH]]]; simpl; [eauto|].
  destruct (Ascii.eqb x c); [eauto|]. rewrite IH. simpl. eauto.
Qed.

Lemma split_char_present (c : ascii) (s : string) :
  contains_char c s = true -> exists a b rest, split_char c s = a :: b :: rest.
Proof.
  induction s as [|x s IH]; simpl; [discriminate|].
  destruct (Ascii.eqb x c); simpl.
  - intros _. destruct (split_char_nonempty c s) as [b [rest ->]]. eauto.
  - intros E. destruct (IH E) as [a [b [rest ->]]]. simpl. eauto.
Qed.

Lemma resolve_hit_unfold `{Collaborators} (st : resolver_state) (hit : Hit)
    (allele locus : string) :
  get_allele_and_locus hit = Ok (allele, locus) ->
  resolve_hit false st hit =
  if stored st locus hit then store st locus hit (marked_name hit allele) else Ok st.
Proof.
  intros G. unfold resolve_hit, stored, annotate, marked_name. rewrite G; cbn [bind].
  destruct (dict_get locus (fst st)) as [best|]; [|reflexivity].
  destruct (Qltb best (score hit)); reflexivity.
Qed.

(** C7.  With truncation checking on, no tag is ever appended: line 141
    passes the hit as the single argument of a routine whose signature has
    five required parameters, so resolving any hit raises; the same hit is
    resolved when the check is off. *)
Theorem truncation_call_raises :
  (forall (C : Collaborators) (hit : Hit) (allele : string),
     @annotate C hit allele true = Err TypeError) /\
  @get_best_allele_per_locus Examples.no_collaborators
     [Examples.exact_hit "gapA_1" 800] true = Err TypeError /\
  @get_best_allele_per_locus Examples.no_collaborators
     [Examples.exact_hit "gapA_1" 800] false = Ok [("gapA", "1")].
Proof. repeat split. Qed.

(** C10, as stated, fails: a hit that does not beat the best one of its
    locus is never split, so its name may lack an underscore without any
    error. *)
Lemma unsplit_hit_is_skipped :
  gene_id (Examples.exact_hit "gapA" 700) = "gapA" /\
  contains_char "_" "gapA" = false /\
  @get_best_allele_per_locus Examples.no_collaborators
     [Examples.exact_hit "gapA_1" 800; Examples.exact_hit "gapA" 700] false
  = Ok [("gapA", "1")].
Proof. repeat split. Qed.

(** C10, amended.  With truncation checking off, a hit that the resolver
    stores (first of its locus, or scoring strictly above the best so far)
    is recorded under the second underscore-separated field of its allele
    name, ['*'] included; this is defined exactly when the name contains an
    underscore, and raises [IndexError] otherwise.  A hit that is not
    stored is skipped without being split. *)
Theorem stored_call_spec `{Collaborators} (pre post : list Hit) (hit : Hit)
    (st : resolver_state) (allele locus : string) :
  loop (resolve_hit false) pre ([], []) = Ok st ->
  get_allele_and_locus hit = Ok (allele, locus) ->
  let name := marked_name hit allele in
  (stored st locus hit = true -> contains_char "_" name = false ->
     get_best_allele_per_locus (pre ++ hit :: post) false = Err IndexError) /\
  (stored st locus hit = true -> contains_char "_" name = true ->
     exists number st',
       nth_error (split_char "_" name) 1 = Some number /\
       loop (resolve_hit false) (pre ++ [hit]) ([], []) = Ok st' /\
       dict_get locus (snd st') = Some number /\
       dict_get locus (fst st') = Some (score hit)) /\
  (stored st locus hit = false ->
     loop (resolve_hit false) (pre ++ [hit]) ([], []) = Ok st).
Proof.
  intros Pre G name. repeat split.
  - intros S U. unfold get_best_allele_per_locus.
    rewrite loop_app, Pre. cbn [bind loop].
    rewrite (resolve_hit_unfold _ _ _ _ G), S. fold name.
    unfold store. now rewrite (split_char_absent _ _ U).
  - intros S U. destruct (split_char_present _ _ U) as [a [number [rest E]]].
    exists number, (dict_set locus (score hit) (fst st), dict_set locus number (snd st)).
    rewrite E. split; [reflexivity|].
    rewrite loop_app, Pre. cbn [bind loop].
    rewrite (resolve_hit_unfold _ _ _ _ G), S. fold name.
    unfold store, list_item. rewrite E. cbn [nth_error bind fst snd].
    now rewrite !dict_get_set_same.
  - intros S. rewrite loop_app, Pre. cbn [bind loop].
    now rewrite (resolve_hit_unfold _ _ _ _ G), S.
Qed.

Lemma stored_call_spec_witness :
  loop (@resolve_hit Examples.no_collaborators false)
    ([Examples.exact_hit "gapA_1" 800] ++ [Examples.exact_hit "gapA" 700]) ([], [])
  = Ok ([("gapA", 800%Q)], [("gapA", "1")]).
Proof.
  exact (proj2 (proj2 (@stored_call_spec Examples.no_collaborators
           [Examples.exact_hit "gapA_1" 800] [] (Examples.exact_hit "gapA" 700)
           _ "gapA" "gapA" eq_refl eq_refl)) eq_refl).
Defined.

(* ================================================================== *)
(** ** The hit reducer against the resolver *)

Lemma Qltb_lt (a b : Q) : Qltb a b = true <-> (a < b)%Q.
Proof.
  unfold Qltb. rewrite negb_true_iff. split.
  - intros E. apply Qnot_le_lt. intros L. apply Qle_bool_iff in L. congruence.
  - intros L. destruct (Qle_bool b a) eqn:E; [|reflexivity].
    apply Qle_bool_iff in E. exfalso. exact (Qlt_not_le _ _ L E).
Qed.

Lemma Qltb_ge (a b : Q) : Qltb a b = false <-> (b <= a)%Q.
Proof.
  unfold Qltb. rewrite negb_false_iff. apply Qle_bool_iff.
Qed.

Lemma pick_assoc (x y z : Hit) : pick x (pick y z) = pick (pick x y) z.
Proof.
  unfold pick.
  destruct (Qltb (score y) (score z)) eqn:YZ;
  destruct (Qltb (score x) (score y)) eqn:XY;
  destruct (Qltb (score x) (score z)) eqn:XZ;
  try rewrite YZ; try rewrite XY; try rewrite XZ; try reflexivity; exfalso;
  repeat match goal with
         | E : Qltb _ _ = true |- _ => apply Qltb_lt in E
         | E : Qltb _ _ = false |- _ => apply Qltb_ge in E
         end.
  - apply (Qlt_irrefl (score x)).
    eapply Qlt_le_trans; [|exact XZ]. eapply Qlt_trans; eassumption.
  - apply (Qlt_irrefl (score x)).
    eapply Qlt_le_trans; [exact XZ|]. eapply Qle_trans; eassumption.
Qed.

(** The head of the sorted group, as a fold from the right. *)
Lemma insert_by_score_head (x : Hit) (l : list Hit) :
  hd_error (insert_by_score x l) =
  Some (match hd_error l with Some y => pick x y | None => x end).
Proof.
  destruct l as [|y r]; simpl; [reflexivity|]. unfold pick.
  destruct (Qltb (score x) (score y)); reflexivity.
Qed.

Lemma sorted_head_cons (x : Hit) (g : list Hit) :
  hd_error (sorted_by_score_desc (x :: g)) =
  Some (match hd_error (sorted_by_score_desc g) with
        | Some y => pick x y
        | None => x
        end).
Proof. apply insert_by_score_head. Qed.

(** Appending a hit to a group: the head changes only for a strictly
    better score, the comparison line 144 makes. *)
Lemma sorted_head_snoc (g : list Hit) (h : Hit) :
  hd_error (sorted_by_score_desc (g ++ [h])) =
  Some (match hd_error (sorted_by_score_desc g) with
        | Some best => pick best h
        | None => h
        end).
Proof.
  induction g as [|x g IH].
  - reflexivity.
  - change ((x :: g) ++ [h])%list with (x :: (g ++ [h]))%list.
    rewrite !sorted_head_cons, IH.
    destruct (hd_error (sorted_by_score_desc g)) as [y|]; [|reflexivity].
    now rewrite pick_assoc.
Qed.

Section Simulation.
Context `{Collaborators}.

Lemma resolve_hit_locus (ct : bool) (st st' : resolver_state) (hit : Hit) :
  resolve_hit ct st hit = Ok st' ->
  exists allele locus, get_allele_and_locus hit = Ok (allele, locus).
Proof.
  unfold resolve_hit. intros E. apply bind_ok_inv in E as [[allele locus] [G _]]. eauto.
Qed.

Lemma agree_step (st st' : resolver_state) (groups : dict (list Hit)) (hit : Hit) :
  agree st groups -> dict_wf groups ->
  resolve_hit false st hit = Ok st' ->
  exists groups',
    group_hit groups hit = Ok groups' /\ agree st' groups' /\ dict_wf groups'.
Proof.
  intros A W E. destruct (resolve_hit_locus _ _ _ _ E) as [allele [locus G]].
  rewrite (resolve_hit_unfold _ _ _ _ G) in E.
  unfold group_hit. rewrite G; cbn [bind].
  eexists; split; [reflexivity|]. split; [|now apply dict_set_wf].
  pose proof (A locus) as Al. unfold stored in E.
  intros l. destruct (String.eqb_spec l locus) as [->|N].
  - (* the locus of the hit *)
    rewrite dict_get_set_same.
    destruct (dict_get locus groups) as [g|].
    + destruct Al as [best [number [Hd [Cs [Bs Ba]]]]]. rewrite Bs in E.
      rewrite sorted_head_snoc, Hd. unfold pick.
      destruct (Qltb (score best) (score hit)).
      * unfold store in E. apply bind_ok_inv in E as [n [Nth E]].
        inversion E; subst st'; clear E. cbn [fst snd].
        exists hit, n. rewrite !dict_get_set_same. repeat split.
        exists allele. split; [assumption|].
        unfold list_item in Nth. destruct (nth_error _ 1); now inversion Nth.
      * inversion E; subst st'. exists best, number. auto.
    + destruct Al as [Bs Ba]. rewrite Bs in E.
      unfold store in E. apply bind_ok_inv in E as [n [Nth E]].
      inversion E; subst st'; clear E. cbn [fst snd].
      exists hit, n. rewrite !dict_get_set_same. repeat split.
      exists allele. split; [assumption|].
      unfold list_item in Nth. destruct (nth_error _ 1); now inversion Nth.
  - (* any other locus *)
    rewrite dict_get_set_other by assumption.
    assert (S : dict_get l (fst st') = dict_get l (fst st) /\
                dict_get l (snd st') = dict_get l (snd st)).
    { destruct (match dict_get locus (fst st) with
                | Some best => Qltb best (score hit)
                | None => true
                end).
      - unfold store in E. apply bind_ok_inv in E as [n [_ E]].
        inversion E; subst st'; cbn [fst snd].
        now rewrite !dict_get_set_other by assumption.
      - now inversion E; subst. }
    destruct S as [-> ->]. apply A.
Qed.

Lemma agree_loop (hits : list Hit) (st : resolver_state) :
  loop (resolve_hit false) hits ([], []) = Ok st ->
  exists groups,
    loop group_hit hits [] = Ok groups /\ agree st groups /\ dict_wf groups.
Proof.
  revert st; induction hits as [|hit hits IH] using rev_ind; intros st E.
  - inversion E; subst. exists []. split; [reflexivity|]. split; [|constructor].
    intros l; simpl; auto.
  - rewrite loop_app in E. apply bind_ok_inv in E as [st0 [E0 E]].
    cbn [loop] in E. apply bind_ok_inv in E as [st1 [E1 E]].
    inversion E; subst st1; clear E.
    destruct (IH _ E0) as [groups [L [A W]]].
    destruct (agree_step _ _ _ _ A W E1) as [groups' [Gr [A' W']]].
    exists groups'. rewrite loop_app, L. cbn [bind loop]. rewrite Gr. auto.
Qed.

Lemma keep_best_loop (ba : dict string) (todo : dict (list Hit)) (bests acc : list Hit) :
  Forall2 (kept_for ba) todo bests ->
  loop keep_best todo acc = Ok (acc ++ bests)%list.
Proof.
  intros F; revert acc; induction F as [|item best todo bests [n [Hd _]] _ IH];
    intros acc; cbn [loop].
  - now rewrite app_nil_r.
  - unfold keep_best at 1, list_item.
    destruct (sorted_by_score_desc (snd item)) as [|b r]; [discriminate|].
    inversion Hd; subst b. cbn [nth_error bind]. rewrite IH.
    now rewrite <- app_assoc.
Qed.

Lemma dict_get_none_keys {V : Type} (k : string) (d : dict V) :
  ~ In k (map fst d) -> dict_get k d = None.
Proof.
  induction d as [|[k' v] d IH]; simpl; [reflexivity|]. intros N.
  destruct (String.eqb_spec k k') as [->|_]; [exfalso; auto | auto].
Qed.

Lemma resolve_bests (ba : dict string) (todo : dict (list Hit)) (bests : list Hit)
    (st0 : resolver_state) :
  Forall2 (kept_for ba) todo bests ->
  dict_wf todo ->
  (forall l, In l (map fst todo) -> dict_get l (fst st0) = None) ->
  exists st1,
    loop (resolve_hit false) bests st0 = Ok st1 /\
    forall l, dict_get l (snd st1) =
              match dict_get l todo with
              | Some _ => dict_get l ba
              | None => dict_get l (snd st0)
              end.
Proof.
  intros F; revert st0;
    induction F as [|[locus g] best todo bests [n [Hd [[allele [G Nth]] Ba]]] _ IH];
    intros st0 W Fresh; cbn [loop].
  - eauto.
  - cbn [fst snd] in *. inversion W as [|? ? Nin W']; subst.
    rewrite (resolve_hit_unfold _ _ _ _ G). unfold stored.
    rewrite (Fresh locus) by now left.
    unfold store, list_item. rewrite Nth; cbn [bind].
    destruct (IH (dict_set locus (score best) (fst st0), dict_set locus n (snd st0)) W')
      as [st1 [L S]].
    { intros l I. cbn [fst]. rewrite dict_get_set_other.
      - apply Fresh. now right.
      - intros ->. contradiction. }
    exists st1. split; [assumption|]. intros l. rewrite S. cbn [snd dict_get].
    destruct (String.eqb_spec l locus) as [->|N].
    + rewrite (dict_get_none_keys _ _ Nin), dict_get_set_same. now rewrite Ba.
    + now rewrite dict_get_set_other by assumption.
Qed.

Lemma agree_kept (st : resolver_state) (groups : dict (list Hit)) :
  agree st groups -> dict_wf groups ->
  exists bests, Forall2 (kept_for (snd st)) groups bests.
Proof.
  intros A W.
  assert (P : forall item, In item groups -> exists best, kept_for (snd st) item best).
  { intros [l g] I. pose proof (A l) as Al.
    rewrite (dict_in_get _ _ _ W I) in Al.
    destruct Al as [best [n [Hd [Cs [_ Ba]]]]]. exists best, n. auto. }
  clear A W. induction groups as [|item groups IH].
  - exists []. constructor.
  - destruct (P item (or_introl eq_refl)) as [best K].
    destruct IH as [bests F]; [intros i I; apply P; now right|].
    exists (best :: bests). now constructor.
Qed.

(** Whenever the resolver returns on all the hits, the reducer returns too,
    and the resolver maps every locus to the same call on what is kept. *)
Lemma reducer_simulation (hits : list Hit) (ct : bool) (ba : dict string) :
  get_best_allele_per_locus hits ct = Ok ba ->
  exists kept ba',
    keep_only_one_hit_per_locus hits = Ok kept /\
    get_best_allele_per_locus kept ct = Ok ba' /\
    forall l, dict_get l ba' = dict_get l ba.
Proof.
  unfold get_best_allele_per_locus. intros E.
  apply bind_ok_inv in E as [st [L E]]. inversion E; subst ba; clear E.
  destruct ct.
  - (* with the truncation check every hit raises *)
    destruct hits as [|hit hits].
    + inversion L; subst. exists [], []. repeat split.
    + exfalso. cbn [loop] in L. apply bind_ok_inv in L as [st1 [S _]].
      unfold resolve_hit in S. apply bind_ok_inv in S as [[allele locus] [_ S]].
      apply bind_ok_inv in S as [a [S _]]. discriminate.
  - destruct (agree_loop _ _ L) as [groups [Gr [A W]]].
    destruct (agree_kept _ _ A W) as [bests F].
    destruct (resolve_bests _ _ _ ([], []) F W) as [st1 [L1 S]]; [reflexivity|].
    exists bests, (snd st1). unfold keep_only_one_hit_per_locus.
    rewrite Gr; cbn [bind]. rewrite (keep_best_loop _ _ _ [] F). cbn [app].
    rewrite L1; cbn [bind]. repeat split. intros l. rewrite S.
    pose proof (A l) as Al. destruct (dict_get l groups); [reflexivity|].
    destruct Al as [_ ->]. reflexivity.
Qed.

End Simulation.

Lemma mlst_blast_eq `{Collaborators} (database : list string) (info_arg : string)
    (hits : list Hit) (max_missing : Z) (ct ri am : bool) :
  mlst_blast database info_arg hits max_missing ct ri am =
  (db <- load_st_database database info_arg ;;
   kept <- (if negb am then keep_only_one_hit_per_locus hits else Ok hits) ;;
   best_allele <- get_best_allele_per_locus kept ct ;;
   assign_and_report info_arg max_missing ri db best_allele).
Proof. reflexivity. Qed.

(** The header loop only looks loci up. *)
Lemma build_profile_ext (hdr : list string) (ba ba' : dict string) :
  (forall l, dict_get l ba' = dict_get l ba) ->
  build_profile hdr ba' = build_profile hdr ba.
Proof.
  intros E. rewrite !build_profile_eq. unfold count_loci.
  assert (N : forall l, number_of ba' l = number_of ba l)
    by (intros l; unfold number_of; now rewrite E).
  assert (C : forall l, call_of ba' l = call_of ba l)
    by (intros l; unfold call_of; now rewrite E).
  assert (M : forall l, is_mismatch ba' l = is_mismatch ba l)
    by (intros l; unfold is_mismatch; now rewrite E).
  assert (S : forall l, is_missing ba' l = is_missing ba l)
    by (intros l; unfold is_missing; now rewrite E).
  rewrite (map_ext _ _ N), (map_ext _ _ C), (filter_ext _ _ M), (filter_ext _ _ S).
  reflexivity.
Qed.

Lemma assign_and_report_ext (info_arg : string) (max_missing : Z) (ri : bool)
    (db : st_database) (ba ba' : dict string) :
  (forall l, dict_get l ba' = dict_get l ba) ->
  assign_and_report info_arg max_missing ri db ba' =
  assign_and_report info_arg max_missing ri db ba.
Proof.
  intros E. unfold assign_and_report. now rewrite (build_profile_ext _ _ _ E).
Qed.

Lemma resolver_total `{Collaborators} (hits : list Hit) (st0 : resolver_state) :
  forallb wf_hit hits = true ->
  exists st, loop (resolve_hit false) hits st0 = Ok st.
Proof.
  revert st0; induction hits as [|hit hits IH]; intros st0 W; cbn [loop]; [eauto|].
  simpl in W. apply andb_true_iff in W as [Wh W]. unfold wf_hit in Wh.
  destruct (get_allele_and_locus hit) as [[allele locus]|] eqn:G; [|discriminate].
  rewrite (resolve_hit_unfold _ _ _ _ G).
  destruct (stored st0 locus hit); cbn [bind]; [|auto].
  destruct (split_char_present _ _ Wh) as [a [n [rest E]]].
  unfold store, list_item. rewrite E. cbn [nth_error bind]. auto.
Qed.

(** C6, as stated, fails: in multi-hit mode the resolver splits every hit
    it stores, also one that a better hit of the locus replaces later; the
    reducer drops such a hit before the resolver sees it.  A first hit
    without allele number makes multi-hit mode raise where the default mode
    assigns ST 10. *)
Lemma multi_hit_mode_raises :
  @mlst_blast Examples.no_collaborators Examples.db3 "no"
    [Examples.exact_hit "gapA" 700; Examples.exact_hit "gapA_1" 800;
     Examples.exact_hit "infB_2" 800; Examples.exact_hit "mdh_3" 800]
    0 false false true
  = Err IndexError /\
  @mlst_blast Examples.no_collaborators Examples.db3 "no"
    [Examples.exact_hit "gapA" 700; Examples.exact_hit "gapA_1" 800;
     Examples.exact_hit "infB_2" 800; Examples.exact_hit "mdh_3" 800]
    0 false false false
  = Ok ("10", ["1"; "2"; "3"], EmptyString).
Proof. split; vm_compute; reflexivity. Qed.

(** C6, amended.  Whenever [mlst_blast] returns in multi-hit mode, it
    returns the same label, annotated alleles and info string with the hit
    reducer applied first; and on hits whose allele names all contain an
    underscore, truncation checking off, the two modes have the same
    outcome altogether. *)
Theorem multi_hit_mode_spec `{Collaborators} (database : list string) (info_arg : string)
    (hits : list Hit) (max_missing : Z) (ct ri : bool) :
  (forall r,
     mlst_blast database info_arg hits max_missing ct ri true = Ok r ->
     mlst_blast database info_arg hits max_missing ct ri false = Ok r) /\
  (forallb wf_hit hits = true ->
   mlst_blast database info_arg hits max_missing false ri true =
   mlst_blast database info_arg hits max_missing false ri false).
Proof.
  assert (Sim : forall c ba, get_best_allele_per_locus hits c = Ok ba ->
            forall db,
              (kept <- keep_only_one_hit_per_locus hits ;;
               best_allele <- get_best_allele_per_locus kept c ;;
               assign_and_report info_arg max_missing ri db best_allele) =
              assign_and_report info_arg max_missing ri db ba).
  { intros c ba R db.
    destruct (reducer_simulation _ _ _ R) as [kept [ba' [K [R' E]]]].
    rewrite K; cbn [bind]. rewrite R'; cbn [bind].
    now apply assign_and_report_ext. }
  rewrite !mlst_blast_eq. cbn [negb]. split.
  - intros r E.
    apply bind_ok_inv in E as [db [L E]]. cbn [bind] in E.
    apply bind_ok_inv in E as [ba [R E]].
    rewrite L; cbn [bind]. now rewrite (Sim _ _ R).
  - intros W. destruct (load_st_database database info_arg) as [db|e]; [|reflexivity].
    cbn [bind]. unfold get_best_allele_per_locus at 1.
    destruct (resolver_total hits ([], []) W) as [st L].
    rewrite (Sim false (snd st)).
    + rewrite L. reflexivity.
    + unfold get_best_allele_per_locus. now rewrite L.
Qed.

Lemma multi_hit_mode_spec_witness :
  @mlst_blast Examples.no_collaborators Examples.db3 "no"
    [Examples.exact_hit "gapA_2" 700; Examples.exact_hit "gapA_1" 800;
     Examples.exact_hit "infB_2" 800; Examples.exact_hit "mdh_3" 800]
    0 false false false
  = Ok ("10", ["1"; "2"; "3"], EmptyString).
Proof.
  exact (proj1 (@multi_hit_mode_spec Examples.no_collaborators Examples.db3 "no"
           [Examples.exact_hit "gapA_2" 700; Examples.exact_hit "gapA_1" 800;
            Examples.exact_hit "infB_2" 800; Examples.exact_hit "mdh_3" 800]
           0 false false) _ eq_refl).
Defined.

(* ================================================================== *)
(** ** Assignment on well-formed input *)

Lemma resolver_numeric `{Collaborators} (hits : list Hit) (st0 : resolver_state) :
  forallb numeric_hit hits = true -> values_ok (snd st0) ->
  exists st, loop (resolve_hit false) hits st0 = Ok st /\ values_ok (snd st).
Proof.
  revert st0; induction hits as [|hit hits IH]; intros st0 W V; cbn [loop]; [eauto|].
  simpl in W. apply andb_true_iff in W as [Wh W]. unfold numeric_hit in Wh.
  destruct (get_allele_and_locus hit) as [[allele locus]|] eqn:G; [|discriminate].
  destruct (nth_error (split_char "_" (marked_name hit allele)) 1) as [call|] eqn:N;
    [|discriminate].
  rewrite (resolve_hit_unfold _ _ _ _ G).
  destruct (stored st0 locus hit); cbn [bind]; [|auto].
  unfold store, list_item. rewrite N; cbn [bind]. apply IH; [assumption|].
  cbn [snd]. intros l c D. apply dict_get_set_cases in D as [[_ ->]|[_ D]]; eauto.
Qed.

Lemma profile_parses (hdr : list string) (ba : dict string) :
  values_ok ba ->
  forallb parses (map zero_missing (best_st (build_profile hdr ba))) = true /\
  forallb parses (map zero_inexact (best_st_annotated (build_profile hdr ba))) = true.
Proof.
  intros V. rewrite build_profile_eq; cbn [best_st best_st_annotated].
  rewrite !map_map. split; apply forallb_forall; intros x I;
    apply in_map_iff in I as [l [<- _]].
  - unfold number_of, zero_missing.
    destruct (dict_get l ba) as [call|] eqn:D; [|reflexivity].
    destruct (String.eqb (allele_number call) "-"); [reflexivity | eauto].
  - unfold call_of, zero_inexact.
    destruct (dict_get l ba) as [call|] eqn:D; [|reflexivity].
    destruct (String.eqb call "-"); [reflexivity|]. cbn [orb].
    destruct (contains_char "*" call) eqn:S; [reflexivity|].
    specialize (V _ _ D). unfold allele_number in V.
    now rewrite (remove_char_absent _ _ S) in V.
Qed.

Lemma assign_st_total (hdr : list string) (ba sts : dict string) (max_missing : Z) :
  (0 < List.length sts)%nat -> wf_sts sts = true -> values_ok ba ->
  exists r, assign_st (build_profile hdr ba) sts max_missing = Ok r.
Proof.
  intros N W V. unfold assign_st.
  destruct (_ <=? _)%Z; [|eauto].
  destruct (dict_mem _ sts) eqn:M.
  - destruct (dict_item_mem _ _ M) as [v [_ ->]]. cbn [bind]. eauto.
  - destruct (profile_parses hdr ba V) as [Q A].
    destruct (get_closest_total _ _ _ N W Q A) as [[q [[st md] mm]] ->].
    cbn [bind]. eauto.
Qed.

Lemma count_all_missing (hdr : list string) :
  count_loci (is_mismatch []) hdr = List.length hdr.
Proof.
  unfold count_loci. induction hdr as [|l hdr IH]; simpl; [reflexivity | now rewrite IH].
Qed.

(** Without any hit every call is ['-'], read as [0] by both distances. *)
Lemma no_hit_profile (hdr : list string) :
  build_profile hdr [] =
  mkProfile (map (fun _ => "-") hdr) (map (fun _ => "-") hdr)
            (List.length hdr) (List.length hdr).
Proof.
  rewrite build_profile_eq.
  assert (C : forall f : string -> bool, (forall l, f l = true) ->
            count_loci f hdr = List.length hdr).
  { intros f T. unfold count_loci.
    induction hdr as [|l hdr IH]; simpl; [reflexivity|]. rewrite T. simpl. now rewrite IH. }
  rewrite !C by reflexivity.
  f_equal; apply map_ext; reflexivity.
Qed.

Lemma distance_full (alleles hdr : list string) :
  forallb nonzero alleles = true ->
  List.length alleles = List.length hdr ->
  distance alleles (map (fun _ => "0") hdr) = Ok (List.length alleles).
Proof.
  revert hdr; induction alleles as [|a alleles IH]; intros [|l hdr] F Len;
    try discriminate; [reflexivity|].
  simpl in F. apply andb_true_iff in F as [Fa F]. unfold nonzero in Fa.
  cbn [map distance List.length].
  destruct (int_of_string a) as [z|]; [|discriminate]. cbn [bind].
  change (int_of_string "0") with (@Ok Z 0%Z). cbn [bind].
  rewrite (IH hdr F) by (simpl in Len; lia). cbn [bind].
  apply negb_true_iff in Fa. now rewrite Fa.
Qed.

Lemma assign_st_no_hit (hdr : list string) (sts : dict string) (max_missing : Z) :
  (0 < List.length sts)%nat -> wf_sts sts = true ->
  full_profiles (List.length hdr) sts = true ->
  (Z.of_nat (List.length hdr) <= max_missing)%Z ->
  exists bst q,
    assign_st (build_profile hdr []) sts max_missing = Ok (bst, List.length hdr, q).
Proof.
  intros N W F G.
  assert (V : values_ok []) by (intros l c; discriminate).
  destruct (profile_parses hdr [] V) as [Q A].
  unfold assign_st. rewrite no_hit_profile in *.
  cbn [mismatch_loci_including_snps best_st best_st_annotated] in *.
  destruct (Z.leb_spec (Z.of_nat (List.length hdr)) max_missing); [|lia].
  destruct (dict_mem _ sts) eqn:M.
  - destruct (dict_item_mem _ _ M) as [v [_ ->]]. cbn [bind]. eauto.
  - destruct (get_closest_total _ _ _ N W Q A) as [[q [[st md] mm]] C].
    rewrite C; cbn [bind]. exists st, q.
    apply get_closest_spec in C as [_ [_ [pr [I D]]]].
    unfold full_profiles in F. rewrite forallb_forall in F.
    specialize (F _ I). cbn [fst] in F. apply andb_true_iff in F as [Len Nz].
    apply Nat.eqb_eq in Len.
    rewrite map_map in D. cbn [zero_inexact] in D.
    rewrite (map_ext _ (fun _ : string => "0")) in D by reflexivity.
    rewrite (distance_full _ _ Nz Len) in D. inversion D. now rewrite Len.
Qed.

(** C9, as stated, fails.  Without any hit a one-locus scheme is answered
    with its ST as a 1-locus variant when [max_missing] allows one missing
    locus: the second gate asks for [1 / 2 = 0] exact matches. *)
Lemma assignment_not_always_zero :
  (wf_sts [("1", "5")] = true /\ full_profiles 1 [("1", "5")] = true) /\
  @mlst_blast Examples.no_collaborators Examples.db1 "no" [] 1 false false false
    = Ok ("5-1LV", ["-"], EmptyString).
Proof. repeat split. Qed.

(** The search also ends in an exception on an ST id [01], which [int]
    accepts but [str] does not give back, and on a table without rows. *)
Lemma search_raises_on_odd_tables :
  parses "01" = true /\
  @mlst_blast Examples.no_collaborators Examples.db_padded "no"
    [Examples.exact_hit "gapA_1" 800; Examples.exact_hit "infB_2" 800]
    0 false false false
    = Err KeyError /\
  @mlst_blast Examples.no_collaborators Examples.db_empty "no"
    [Examples.exact_hit "gapA_1" 800; Examples.exact_hit "infB_2" 800]
    0 false false false
    = Err ValueError.
Proof. repeat split. Qed.

(** C9, amended.  For a database the loader accepts whose table is not
    empty, holds only allele numbers that [int] accepts and only canonical
    ST ids, and for hits with numeric allele identifiers, the assignment
    returns without raising when truncation checking is off.  Without any
    hit the label is ["0"] whenever [max_missing] is below the number of
    loci, and also whenever there are two loci or more and every registered
    profile has a non-zero allele number for each locus. *)
Theorem assignment_total `{Collaborators} (database : list string) (info_arg : string)
    (hits : list Hit) (max_missing : Z) (ri am : bool) (db : st_database) :
  load_st_database database info_arg = Ok db ->
  (0 < List.length (alleles_to_st db))%nat ->
  wf_sts (alleles_to_st db) = true ->
  forallb numeric_hit hits = true ->
  let loci := List.length (header db) in
  (exists r, mlst_blast database info_arg hits max_missing false ri am = Ok r) /\
  (forall ct,
     (max_missing < Z.of_nat loci)%Z \/
     ((2 <= loci)%nat /\ full_profiles loci (alleles_to_st db) = true) ->
     exists info,
       mlst_blast database info_arg [] max_missing ct ri am =
       Ok ("0", map (fun _ => "-") (header db), info)).
Proof.
  intros L N W Hn loci. split.
  - destruct (resolver_numeric hits ([], []) Hn) as [st [R V]]; [discriminate|].
    assert (R' : get_best_allele_per_locus hits false = Ok (snd st))
      by (unfold get_best_allele_per_locus; now rewrite R).
    assert (T : forall ba, (forall l, dict_get l ba = dict_get l (snd st)) ->
              exists r, assign_and_report info_arg max_missing ri db ba = Ok r).
    { intros ba E. rewrite (assign_and_report_ext _ _ _ _ _ _ E).
      unfold assign_and_report.
      destruct (assign_st_total (header db) (snd st) _ max_missing N W V)
        as [[[bst mm] q] ->]. cbn [bind].
      destruct (info_column_total info_arg (st_to_info db) ri
                  (missing_loci (build_profile (header db) (snd st)))
                  (gate2 (List.length (header db) / 2) q mm bst)) as [i ->].
      cbn [bind]. eauto. }
    rewrite mlst_blast_eq, L; cbn [bind]. destruct am; cbn [negb bind].
    + rewrite R'; cbn [bind]. now apply T.
    + destruct (reducer_simulation _ _ _ R') as [kept [ba' [K [Rk E]]]].
      rewrite K; cbn [bind]. rewrite Rk; cbn [bind]. now apply T.
  - intros ct G.
    assert (K : (if negb am then keep_only_one_hit_per_locus [] else Ok []) = Ok [])
      by now destruct am.
    assert (R : get_best_allele_per_locus [] ct = Ok []) by reflexivity.
    destruct (Z.ltb_spec max_missing (Z.of_nat loci)) as [Lt|Ge].
    + destruct (mlst_blast_gate1 database info_arg [] max_missing ct ri am db [] []
                  L K R) as [info E].
      * now rewrite count_all_missing.
      * exists info. rewrite E. reflexivity.
    + destruct G as [G|[Two Full]]; [lia|].
      destruct (assign_st_no_hit (header db) _ max_missing N W Full Ge) as [bst [q A]].
      rewrite (mlst_blast_unfold _ _ _ _ _ _ _ _ _ _ L K R). cbv zeta.
      rewrite A; cbn [bind].
      assert (Z0 : gate2 (List.length (header db) / 2) q (List.length (header db)) bst
                   = "0").
      { unfold gate2. rewrite (assign_st_query_length _ _ _ _ _ _ A), best_st_length.
        fold loci. pose proof (Nat.Div0.div_le_mono 2 loci 2 Two) as D.
        change (2 / 2)%nat with 1%nat in D.
        destruct (Z.ltb_spec (Z.of_nat loci - Z.of_nat loci) (Z.of_nat (loci / 2)));
          [reflexivity | lia]. }
      rewrite Z0, label_zero.
      destruct (info_column_total info_arg (st_to_info db) ri
                  (missing_loci (build_profile (header db) [])) "0") as [info ->].
      cbn [bind]. exists info. now rewrite no_hit_profile.
Qed.

Lemma assignment_total_witness :
  exists r,
    @mlst_blast Examples.no_collaborators Examples.db3 "no"
      [Examples.exact_hit "gapA_1" 800; Examples.inexact_hit "infB_7" 790] 3
      false false false = Ok r.
Proof.
  refine (proj1 (@assignment_total Examples.no_collaborators Examples.db3 "no"
           [Examples.exact_hit "gapA_1" 800; Examples.inexact_hit "infB_7" 790] 3
           false false _ eq_refl _ eq_refl eq_refl)).
  simpl; lia.
Defined.

(* ================================================================== *)
(** ** Gene identifiers *)

Lemma split_dunder_cons (a : ascii) (r : string) :
  split_dunder (String a r) =
  if Ascii.eqb a "_" then
    match r with
    | String b r' =>
        if Ascii.eqb b "_" then EmptyString :: split_dunder r'
        else cons_head a (split_dunder r)
    | EmptyString => cons_head a (split_dunder r)
    end
  else cons_head a (split_dunder r).
Proof.
  destruct a as [[] [] [] [] [] [] [] []]; try reflexivity.
  destruct r as [|b r']; [reflexivity|].
  destruct b as [[] [] [] [] [] [] [] []]; reflexivity.
Qed.

Lemma contains_dunder_cons (a : ascii) (r : string) :
  contains_dunder (String a r) =
  (Ascii.eqb a "_" && match r with String b _ => Ascii.eqb b "_" | EmptyString => false end)
  || contains_dunder r.
Proof.
  destruct a as [[] [] [] [] [] [] [] []]; try reflexivity.
  destruct r as [|b r']; [reflexivity|].
  destruct b as [[] [] [] [] [] [] [] []]; reflexivity.
Qed.

Lemma split_dunder_clean (s : string) :
  contains_dunder s = false -> split_dunder s = [s].
Proof.
  induction s as [|a r IH]; [reflexivity|].
  rewrite contains_dunder_cons, split_dunder_cons. intros E.
  apply orb_false_iff in E as [E1 E2]. rewrite (IH E2).
  destruct (Ascii.eqb a "_"); [|reflexivity].
  destruct r as [|b r']; [reflexivity|].
  simpl in E1. now rewrite E1.
Qed.

Lemma contains_dunder_app (p r : string) :
  contains_dunder (p ++ "__" ++ r) = true.
Proof.
  induction p as [|a p IH]; [reflexivity|].
  change (String a p ++ "__" ++ r) with (String a (p ++ "__" ++ r)).
  rewrite contains_dunder_cons, IH. apply orb_true_r.
Qed.

Lemma clean_part_tail (a : ascii) (p : string) :
  clean_part (String a p) = true -> clean_part p = true.
Proof.
  unfold clean_part. rewrite contains_dunder_cons. intros E.
  apply andb_true_iff in E as [E1 E2].
  apply negb_true_iff, orb_false_iff in E1 as [_ E1]. rewrite E1.
  destruct p as [|b p']; [reflexivity|]. exact E2.
Qed.

Lemma split_dunder_app (p r : string) :
  clean_part p = true ->
  split_dunder (p ++ "__" ++ r) = p :: split_dunder r.
Proof.
  induction p as [|a p IH]; intros C; [reflexivity|].
  change (String a p ++ "__" ++ r) with (String a (p ++ "__" ++ r)).
  rewrite split_dunder_cons, (IH (clean_part_tail _ _ C)).
  destruct (Ascii.eqb a "_") eqn:A; [|reflexivity].
  unfold clean_part in C. rewrite contains_dunder_cons, A in C.
  destruct p as [|b p'].
  - simpl in C. rewrite A in C. discriminate.
  - cbn [append andb orb] in *.
    destruct (Ascii.eqb b "_"); [discriminate | reflexivity].
Qed.

Lemma split_char_first (c : ascii) (s : string) :
  exists h t rest,
    split_char c s = h :: t /\ contains_char c h = false /\
    s = h ++ rest /\ (rest = EmptyString \/ exists r, rest = String c r).
Proof.
  induction s as [|a s [h [t [rest [S [N [E T]]]]]]].
  - exists EmptyString, [], EmptyString. auto.
  - simpl. destruct (Ascii.eqb_spec a c) as [->|Ne].
    + exists EmptyString, (split_char c s), (String c s).
      split; [reflexivity|]. split; [reflexivity|]. split; [reflexivity|]. eauto.
    + exists (String a h), t, rest. rewrite S. simpl.
      apply Ascii.eqb_neq in Ne. rewrite Ne, N.
      split; [reflexivity|]. split; [reflexivity|]. split; [now rewrite <- E | exact T].
Qed.

(** X1.  A gene id without double underscore is never rejected: the allele
    name is the whole id, and the locus is the text before its first
    underscore (the whole id when it has none). *)
Theorem plain_id_locus (hit : Hit) :
  contains_dunder (gene_id hit) = false ->
  exists locus rest,
    get_allele_and_locus hit = Ok (gene_id hit, locus) /\
    gene_id hit = locus ++ rest /\
    contains_char "_" locus = false /\
    (rest = EmptyString \/ exists r, rest = String "_" r).
Proof.
  intros D. unfold get_allele_and_locus. rewrite D.
  destruct (split_char_first "_" (gene_id hit)) as [h [t [rest [S [N [E T]]]]]].
  exists h, rest. unfold list_item. rewrite S. cbn [nth_error bind]. auto.
Qed.

Lemma plain_id_locus_witness :
  exists locus rest,
    get_allele_and_locus (Examples.exact_hit "gapA_12" 800) = Ok ("gapA_12", locus) /\
    "gapA_12" = locus ++ rest /\
    contains_char "_" locus = false /\
    (rest = EmptyString \/ exists r, rest = String "_" r).
Proof. exact (plain_id_locus (Examples.exact_hit "gapA_12" 800) eq_refl). Defined.

(** X2.  An srst2 id [cluster__locus__allele], with or without a fourth
    field, is decoded to its allele and locus fields, whenever no field
    holds a double underscore or ends in an underscore. *)
Theorem srst2_id_decoded (hit : Hit) (cluster locus allele : string) :
  clean_part cluster = true -> clean_part locus = true ->
  (contains_dunder allele = false ->
   gene_id hit = cluster ++ "__" ++ locus ++ "__" ++ allele ->
   get_allele_and_locus hit = Ok (allele, locus)) /\
  (forall seqid,
     clean_part allele = true ->
     gene_id hit = cluster ++ "__" ++ locus ++ "__" ++ allele ++ "__" ++ seqid ->
     get_allele_and_locus hit = Ok (allele, locus)).
Proof.
  intros C L. split.
  - intros A E. unfold get_allele_and_locus.
    rewrite E, contains_dunder_app, !split_dunder_app, (split_dunder_clean _ A)
      by assumption.
    reflexivity.
  - intros seqid A E. unfold get_allele_and_locus.
    rewrite E, contains_dunder_app, !split_dunder_app by assumption.
    reflexivity.
Qed.

Lemma srst2_id_decoded_witness :
  get_allele_and_locus (Examples.exact_hit "0__gapA__gapA_1__7" 800)
  = Ok ("gapA_1", "gapA").
Proof.
  exact (proj2 (srst2_id_decoded (Examples.exact_hit "0__gapA__gapA_1__7" 800)
                  "0" "gapA" "gapA_1" eq_refl eq_refl) "7" eq_refl eq_refl).
Defined.

(** X3.  A gene id with exactly one double-underscore separator has only
    two components, and reading the third raises [IndexError]. *)
Theorem two_field_id_raises (hit : Hit) (first second : string) :
  clean_part first = true -> contains_dunder second = false ->
  gene_id hit = first ++ "__" ++ second ->
  get_allele_and_locus hit = Err IndexError.
Proof.
  intros F S E. unfold get_allele_and_locus.
  rewrite E, contains_dunder_app, split_dunder_app, (split_dunder_clean _ S)
    by assumption.
  reflexivity.
Qed.

Lemma two_field_id_raises_witness :
  get_allele_and_locus (Examples.exact_hit "gapA__1" 800) = Err IndexError.
Proof.
  exact (two_field_id_raises (Examples.exact_hit "gapA__1" 800) "gapA" "1"
           eq_refl eq_refl eq_refl).
Defined.

(* ================================================================== *)
(** ** The hit reducer *)

Lemma has_locus_spec (locus : string) (hit : Hit) :
  has_locus locus hit = true <-> locus_of hit = Some locus.
Proof.
  unfold has_locus. destruct (locus_of hit) as [l|]; [|split; discriminate].
  rewrite String.eqb_eq. split; congruence.
Qed.

Lemma hits_of_snoc (locus : string) (hits : list Hit) (hit : Hit) :
  hits_of locus (hits ++ [hit]) =
  (if has_locus locus hit then hits_of locus hits ++ [hit] else hits_of locus hits)%list.
Proof.
  unfold hits_of. rewrite filter_app. simpl.
  destruct (has_locus locus hit); [reflexivity | apply app_nil_r].
Qed.

Lemma group_hit_spec (hits : list Hit) (groups groups' : dict (list Hit)) (hit : Hit) :
  groups_of hits groups -> group_hit groups hit = Ok groups' ->
  groups_of (hits ++ [hit]) groups'.
Proof.
  intros [W G] E. unfold group_hit in E.
  apply bind_ok_inv in E as [[allele locus] [A E]]. inversion E; subst groups'; clear E.
  split; [now apply dict_set_wf|]. intros l. rewrite hits_of_snoc.
  assert (L : locus_of hit = Some locus) by (unfold locus_of; now rewrite A).
  destruct (String.eqb_spec l locus) as [->|N].
  - rewrite dict_get_set_same, (proj2 (has_locus_spec _ _) L), G.
    destruct (hits_of locus hits); reflexivity.
  - rewrite dict_get_set_other by assumption.
    destruct (has_locus l hit) eqn:Hl; [|apply G].
    apply has_locus_spec in Hl. congruence.
Qed.

Lemma group_loop_spec (hits : list Hit) (groups : dict (list Hit)) :
  loop group_hit hits [] = Ok groups -> groups_of hits groups.
Proof.
  revert groups; induction hits as [|hit hits IH] using rev_ind; intros groups E.
  - inversion E; subst. split; [constructor | reflexivity].
  - rewrite loop_app in E. apply bind_ok_inv in E as [g0 [E0 E]].
    cbn [loop] in E. apply bind_ok_inv in E as [g1 [E1 E]]. inversion E; subst g1.
    eapply group_hit_spec; eauto.
Qed.

Lemma group_loop_total (hits : list Hit) (acc : dict (list Hit)) :
  forallb (fun h => is_ok (get_allele_and_locus h)) hits = true ->
  exists groups, loop group_hit hits acc = Ok groups.
Proof.
  revert acc; induction hits as [|hit hits IH]; intros acc A; cbn [loop]; [eauto|].
  simpl in A. apply andb_true_iff in A as [Ah A]. unfold group_hit at 1.
  destruct (get_allele_and_locus hit) as [[allele locus]|]; [|discriminate].
  cbn [bind]. apply IH, A.
Qed.

Lemma get_allele_and_locus_error (hit : Hit) (e : exn) :
  get_allele_and_locus hit = Err e -> e = IndexError.
Proof.
  unfold get_allele_and_locus, list_item.
  destruct (contains_dunder (gene_id hit)).
  - destruct (nth_error (split_dunder (gene_id hit)) 1); cbn [bind]; [|congruence].
    destruct (nth_error (split_dunder (gene_id hit)) 2); cbn [bind]; congruence.
  - destruct (nth_error (split_char "_" (gene_id hit)) 0); cbn [bind]; congruence.
Qed.

Lemma group_loop_error (hits : list Hit) (acc : dict (list Hit)) :
  forallb (fun h => is_ok (get_allele_and_locus h)) hits = false ->
  loop group_hit hits acc = Err IndexError.
Proof.
  revert acc; induction hits as [|hit hits IH]; intros acc A; [discriminate|].
  simpl in A. cbn [loop]. unfold group_hit at 1.
  destruct (get_allele_and_locus hit) as [[allele locus]|e] eqn:G; cbn [bind].
  - apply IH, A.
  - now rewrite (get_allele_and_locus_error _ _ G).
Qed.

(** The head of a sorted group is its first hit of maximal score. *)
Lemma sorted_head_first_best (g : list Hit) (best : Hit) :
  hd_error (sorted_by_score_desc g) = Some best -> first_best g best.
Proof.
  revert best; induction g as [|x g IH]; intros best E; [discriminate|].
  rewrite sorted_head_cons in E.
  destruct (hd_error (sorted_by_score_desc g)) as [y|] eqn:Hy.
  - destruct (IH y eq_refl) as [before [after [-> [B A]]]].
    unfold pick in E. destruct (Qltb (score x) (score y)) eqn:C.
    + inversion E; subst best. apply Qltb_lt in C.
      exists (x :: before), after. repeat split; auto.
    + inversion E; subst best. apply Qltb_ge in C.
      exists [], (before ++ y :: after)%list. repeat split; [constructor|].
      apply Forall_app. split.
      * eapply Forall_impl; [|exact B]. intros h Lt. simpl in Lt.
        apply Qlt_le_weak. eapply Qlt_le_trans; eassumption.
      * constructor; [assumption|].
        eapply Forall_impl; [|exact A]. intros h Le. simpl in Le.
        eapply Qle_trans; eassumption.
  - inversion E; subst best.
    assert (g = []) as ->
      by (destruct g; [reflexivity | rewrite sorted_head_cons in Hy; discriminate]).
    exists [], []. repeat split; constructor.
Qed.

Lemma keep_best_loop_inv (todo : dict (list Hit)) (acc kept : list Hit) :
  loop keep_best todo acc = Ok kept ->
  exists bests,
    kept = (acc ++ bests)%list /\
    Forall2 (fun item best => hd_error (sorted_by_score_desc (snd item)) = Some best)
            todo bests.
Proof.
  revert acc; induction todo as [|item todo IH]; intros acc E; cbn [loop] in E.
  - inversion E; subst. exists []. now rewrite app_nil_r.
  - apply bind_ok_inv in E as [acc1 [K E]]. unfold keep_best, list_item in K.
    destruct (sorted_by_score_desc (snd item)) as [|b r] eqn:S; [discriminate|].
    cbn [nth_error bind] in K. inversion K; subst acc1; clear K.
    destruct (IH _ E) as [bests [-> F]]. exists (b :: bests).
    rewrite <- app_assoc. split; [reflexivity|]. constructor; [|assumption].
    now rewrite S.
Qed.

Lemma keep_best_loop_total (todo : dict (list Hit)) (acc : list Hit) :
  (forall item, In item todo -> snd item <> []) ->
  exists kept, loop keep_best todo acc = Ok kept.
Proof.
  revert acc; induction todo as [|item todo IH]; intros acc N; cbn [loop]; [eauto|].
  unfold keep_best at 1, list_item.
  destruct (snd item) as [|x g] eqn:S; [exfalso; apply (N item); [now left | assumption]|].
  assert (Hd : exists b, hd_error (sorted_by_score_desc (x :: g)) = Some b)
    by (rewrite sorted_head_cons; eauto).
  destruct Hd as [b Hd]. destruct (sorted_by_score_desc (x :: g)) as [|b' r]; [discriminate|].
  cbn [nth_error bind]. apply IH. intros i I. apply N. now right.
Qed.

Lemma groups_nonempty (hits : list Hit) (groups : dict (list Hit)) (item : string * list Hit) :
  groups_of hits groups -> In item groups ->
  snd item = hits_of (fst item) hits /\ snd item <> [].
Proof.
  intros [W G] I. destruct item as [l g]. cbn [fst snd].
  pose proof (dict_in_get _ _ _ W I) as D. rewrite G in D.
  destruct (hits_of l hits) as [|x r]; [discriminate|]. inversion D.
  split; [reflexivity | discriminate].
Qed.

(** X4.  The reducer raises only on a hit whose gene id cannot be parsed:
    it returns exactly when every gene id yields a locus, and otherwise
    raises [IndexError]; indexing the first hit of a group never fails. *)
Theorem reducer_total (hits : list Hit) :
  if forallb (fun h => is_ok (get_allele_and_locus h)) hits
  then exists kept, keep_only_one_hit_per_locus hits = Ok kept
  else keep_only_one_hit_per_locus hits = Err IndexError.
Proof.
  unfold keep_only_one_hit_per_locus.
  destruct (forallb _ hits) eqn:A.
  - destruct (group_loop_total hits [] A) as [groups G]. rewrite G; cbn [bind].
    apply keep_best_loop_total. intros item I.
    exact (proj2 (groups_nonempty _ _ _ (group_loop_spec _ _ G) I)).
  - now rewrite (group_loop_error hits [] A).
Qed.

Lemma Forall2_impl_in {A B : Type} (R Q : A -> B -> Prop) (l1 : list A) (l2 : list B) :
  Forall2 R l1 l2 ->
  (forall a b, In a l1 -> R a b -> Q a b) ->
  Forall2 Q l1 l2.
Proof.
  induction 1 as [|a b l1 l2 Rab _ IH]; intros I; constructor.
  - apply I; [now left | assumption].
  - apply IH. intros a' b' In'. apply I. now right.
Qed.

Lemma Forall2_in_r {A B : Type} (Q : A -> B -> Prop) (l1 : list A) (l2 : list B) (b : B) :
  Forall2 Q l1 l2 -> In b l2 -> exists a, In a l1 /\ Q a b.
Proof.
  induction 1 as [|a b' l1 l2 Qab _ IH]; intros I; [destruct I|].
  destruct I as [<-|I].
  - exists a. split; [now left | assumption].
  - destruct (IH I) as [a' [I' Q']]. exists a'. split; [now right | assumption].
Qed.

Lemma Forall2_in_l {A B : Type} (Q : A -> B -> Prop) (l1 : list A) (l2 : list B) (a : A) :
  Forall2 Q l1 l2 -> In a l1 -> exists b, In b l2 /\ Q a b.
Proof.
  induction 1 as [|a' b l1 l2 Qab _ IH]; intros I; [destruct I|].
  destruct I as [<-|I].
  - exists b. split; [now left | assumption].
  - destruct (IH I) as [b' [I' Q']]. exists b'. split; [now right | assumption].
Qed.

Lemma NoDup_map_some {A : Type} (l : list A) :
  NoDup l -> NoDup (map Some l).
Proof.
  induction 1 as [|a l N _ IH]; simpl; constructor; [|assumption].
  intros I. apply in_map_iff in I as [x [E I]]. inversion E; subst. contradiction.
Qed.

Lemma first_best_in (g : list Hit) (best : Hit) : first_best g best -> In best g.
Proof.
  intros [before [after [-> _]]]. apply in_app_iff. right. now left.
Qed.

Lemma hits_of_locus (locus : string) (hits : list Hit) (hit : Hit) :
  In hit (hits_of locus hits) <-> In hit hits /\ locus_of hit = Some locus.
Proof. unfold hits_of. rewrite filter_In, has_locus_spec. reflexivity. Qed.

(** What the reducer keeps: one hit per locus met, the first of maximal
    score among the hits of that locus. *)
Lemma reducer_kept (hits kept : list Hit) :
  keep_only_one_hit_per_locus hits = Ok kept ->
  NoDup (map locus_of kept) /\
  (forall k, In k kept ->
     exists locus, locus_of k = Some locus /\ first_best (hits_of locus hits) k) /\
  (forall h, In h hits ->
     exists k locus,
       In k kept /\ locus_of h = Some locus /\ first_best (hits_of locus hits) k).
Proof.
  unfold keep_only_one_hit_per_locus. intros E.
  apply bind_ok_inv in E as [groups [G E]].
  assert (A : forallb (fun h => is_ok (get_allele_and_locus h)) hits = true).
  { destruct (forallb _ hits) eqn:A; [reflexivity|].
    rewrite (group_loop_error hits [] A) in G. discriminate. }
  pose proof (group_loop_spec _ _ G) as Gs.
  apply keep_best_loop_inv in E as [bests [-> F]]. cbn [app].
  assert (F' : Forall2 (fun item best =>
                 locus_of best = Some (fst item) /\
                 first_best (hits_of (fst item) hits) best) groups bests).
  { eapply Forall2_impl_in; [exact F|]. intros item best I Hd.
    destruct (groups_nonempty _ _ _ Gs I) as [S _]. cbv beta in Hd. rewrite S in Hd.
    apply sorted_head_first_best in Hd. split; [|assumption].
    apply first_best_in, hits_of_locus in Hd. tauto. }
  split; [|split].
  - assert (M : map locus_of bests = map Some (map fst groups)).
    { clear -F'. induction F' as [|item best groups bests [L _] _ IH]; simpl;
        [reflexivity | now rewrite L, IH]. }
    rewrite M. apply NoDup_map_some. exact (proj1 Gs).
  - intros k I. destruct (Forall2_in_r _ _ _ _ F' I) as [item [_ [L B]]].
    exists (fst item). split; assumption.
  - intros h I. rewrite forallb_forall in A. specialize (A _ I).
    destruct (get_allele_and_locus h) as [[allele locus]|] eqn:Gh; [|discriminate].
    assert (L : locus_of h = Some locus) by (unfold locus_of; now rewrite Gh).
    assert (Ih : In h (hits_of locus hits)) by (apply hits_of_locus; auto).
    destruct Gs as [W Gg]. pose proof (Gg locus) as D.
    destruct (hits_of locus hits) as [|x r] eqn:Ho; [destruct Ih|].
    apply dict_get_in in D.
    destruct (Forall2_in_l _ _ _ _ F' D) as [best [Ib [_ B]]]. cbn [fst] in B.
    exists best, locus. repeat split; assumption.
Qed.

(** X5.  When the reducer returns, the kept hits have pairwise different
    loci, every kept hit is the first hit of maximal score among the input
    hits of its locus, and every input hit has such a kept hit for its
    locus. *)
Theorem reducer_keeps_first_best (hits kept : list Hit) :
  keep_only_one_hit_per_locus hits = Ok kept ->
  NoDup (map locus_of kept) /\
  (forall k, In k kept ->
     exists locus, locus_of k = Some locus /\ first_best (hits_of locus hits) k) /\
  (forall h, In h hits ->
     exists k locus,
       In k kept /\ locus_of h = Some locus /\ first_best (hits_of locus hits) k).
Proof. apply reducer_kept. Qed.

Lemma reducer_keeps_first_best_witness :
  NoDup (map locus_of [Examples.exact_hit "gapA_2" 800; Examples.exact_hit "infB_1" 700]).
Proof.
  exact (proj1 (reducer_keeps_first_best
                  [Examples.exact_hit "gapA_1" 700; Examples.exact_hit "gapA_2" 800;
                   Examples.exact_hit "infB_1" 700; Examples.exact_hit "gapA_3" 800]
                  [Examples.exact_hit "gapA_2" 800; Examples.exact_hit "infB_1" 700]
                  eq_refl)).
Defined.

Lemma dict_set_fresh {V : Type} (k : string) (v : V) (d : dict V) :
  dict_get k d = None -> dict_set k v d = (d ++ [(k, v)])%list.
Proof.
  induction d as [|[k' v'] d IH]; simpl; [reflexivity|].
  destruct (String.eqb k k'); [discriminate|]. intros E. now rewrite IH.
Qed.

Lemma group_loop_distinct (hits : list Hit) (acc : dict (list Hit)) :
  NoDup (map locus_of hits) ->
  (forall h, In h hits -> exists locus, locus_of h = Some locus /\ dict_get locus acc = None) ->
  exists items,
    loop group_hit hits acc = Ok (acc ++ items)%list /\
    Forall2 (fun item h => snd item = [h]) items hits.
Proof.
  revert acc; induction hits as [|hit hits IH]; intros acc N F; cbn [loop].
  - exists []. now rewrite app_nil_r.
  - inversion N as [|? ? Nin N']; subst.
    destruct (F hit (or_introl eq_refl)) as [locus [L D]].
    unfold group_hit at 1. unfold locus_of in L.
    destruct (get_allele_and_locus hit) as [[allele lo]|] eqn:G; [|discriminate].
    inversion L; subst lo. cbn [bind]. rewrite D.
    destruct (IH (dict_set locus ([] ++ [hit])%list acc) N') as [items [E F2]].
    { intros h I. destruct (F h (or_intror I)) as [l [Lh Dh]]. exists l.
      split; [assumption|]. rewrite dict_get_set_other; [assumption|].
      intros ->. apply Nin. apply in_map_iff. exists h. split; [|assumption].
      unfold locus_of. now rewrite G. }
    rewrite E, (dict_set_fresh _ _ _ D), <- app_assoc.
    exists ((locus, [hit]) :: items). split; [reflexivity|]. now constructor.
Qed.

Lemma keep_best_singletons (items : dict (list Hit)) (hits acc : list Hit) :
  Forall2 (fun item h => snd item = [h]) items hits ->
  loop keep_best items acc = Ok (acc ++ hits)%list.
Proof.
  intros F; revert acc; induction F as [|item h items hits S _ IH]; intros acc; cbn [loop].
  - now rewrite app_nil_r.
  - unfold keep_best at 1. rewrite S. cbn. rewrite IH. now rewrite <- app_assoc.
Qed.

(** X6.  The reducer is idempotent: applied to what it kept, it returns
    the same hits in the same order. *)
Theorem reducer_idempotent (hits kept : list Hit) :
  keep_only_one_hit_per_locus hits = Ok kept ->
  keep_only_one_hit_per_locus kept = Ok kept.
Proof.
  intros E. destruct (reducer_kept _ _ E) as [N [K _]].
  destruct (group_loop_distinct kept [] N) as [items [G F]].
  { intros h I. destruct (K h I) as [l [L _]]. eauto. }
  unfold keep_only_one_hit_per_locus. rewrite G. cbn [bind app].
  now rewrite (keep_best_singletons _ _ [] F).
Qed.

Lemma reducer_idempotent_witness :
  keep_only_one_hit_per_locus
    [Examples.exact_hit "gapA_2" 800; Examples.exact_hit "infB_1" 700]
  = Ok [Examples.exact_hit "gapA_2" 800; Examples.exact_hit "infB_1" 700].
Proof.
  exact (reducer_idempotent
           [Examples.exact_hit "gapA_1" 700; Examples.exact_hit "gapA_2" 800;
            Examples.exact_hit "infB_1" 700; Examples.exact_hit "gapA_3" 800]
           _ eq_refl).
Defined.

(* ================================================================== *)
(** ** The calls of the resolver *)

(** X7.  When the resolver returns (truncation checking off), a locus has a
    call exactly when some hit has that locus, and the call is the second
    underscore-separated field of the allele name of the first hit of
    maximal score of the locus. *)
Theorem resolver_calls `{Collaborators} (hits : list Hit) (ba : dict string) :
  get_best_allele_per_locus hits false = Ok ba ->
  forall locus,
    match hits_of locus hits with
    | [] => dict_get locus ba = None
    | g =>
        exists best number,
          first_best g best /\ call_stored locus best number /\
          dict_get locus ba = Some number
    end.
Proof.
  unfold get_best_allele_per_locus. intros E locus.
  apply bind_ok_inv in E as [st [L E]]. inversion E; subst ba; clear E.
  destruct (agree_loop _ _ L) as [groups [G [A _]]].
  destruct (group_loop_spec _ _ G) as [_ Gs].
  specialize (A locus). rewrite Gs in A.
  destruct (hits_of locus hits) as [|x r]; [tauto|].
  destruct A as [best [number [Hd [Cs [_ Ba]]]]].
  exists best, number. split; [|split]; auto.
  now apply sorted_head_first_best.
Qed.

Lemma resolver_calls_witness :
  match hits_of "gapA" [Examples.exact_hit "gapA_1" 700; Examples.exact_hit "gapA_2" 800;
                        Examples.exact_hit "infB_1" 700; Examples.exact_hit "gapA_3" 800] with
  | [] => dict_get "gapA" [("gapA", "2"); ("infB", "1")] = None
  | g =>
      exists best number,
        first_best g best /\ call_stored "gapA" best number /\
        dict_get "gapA" [("gapA", "2"); ("infB", "1")] = Some number
  end.
Proof.
  exact (@resolver_calls Examples.no_collaborators
           [Examples.exact_hit "gapA_1" 700; Examples.exact_hit "gapA_2" 800;
            Examples.exact_hit "infB_1" 700; Examples.exact_hit "gapA_3" 800]
           _ eq_refl "gapA").
Defined.

Lemma split_char_append (c : ascii) (s t : string) :
  contains_char c t = false ->
  split_char c (s ++ t) = append_last t (split_char c s).
Proof.
  intros T. induction s as [|a s IH].
  - simpl. now apply split_char_absent.
  - change (String a s ++ t) with (String a (s ++ t)). cbn [split_char]. rewrite IH.
    destruct (split_char_nonempty c s) as [h [r E]]. rewrite E.
    destruct (Ascii.eqb a c).
    + reflexivity.
    + destruct r as [|y r]; reflexivity.
Qed.

(** X8.  The ['*'] of an inexact hit reaches the recorded call only through
    the last underscore-separated field of the allele name: with exactly
    one underscore the call is the number, followed by ['*'] when the hit is
    inexact; with two underscores or more the call is the second field and
    carries no marker, inexact or not. *)
Theorem stored_call_marker `{Collaborators} (st : resolver_state) (hit : Hit)
    (allele locus : string) :
  get_allele_and_locus hit = Ok (allele, locus) ->
  stored st locus hit = true ->
  (forall name number,
     split_char "_" allele = [name; number] ->
     exists st',
       resolve_hit false st hit = Ok st' /\
       dict_get locus (snd st') = Some (if inexact hit then number ++ "*" else number)) /\
  (forall name number third rest,
     split_char "_" allele = name :: number :: third :: rest ->
     exists st',
       resolve_hit false st hit = Ok st' /\
       dict_get locus (snd st') = Some number).
Proof.
  intros G S. rewrite (resolve_hit_unfold _ _ _ _ G), S.
  unfold store, list_item, marked_name. split.
  - intros name number E.
    destruct (inexact hit); [rewrite split_char_append by reflexivity|]; rewrite E;
      cbn [append_last nth_error bind]; eexists; (split; [reflexivity|]);
      cbn [snd]; apply dict_get_set_same.
  - intros name number third rest E.
    destruct (inexact hit); [rewrite split_char_append by reflexivity|]; rewrite E;
      cbn [append_last nth_error bind]; eexists; (split; [reflexivity|]);
      cbn [snd]; apply dict_get_set_same.
Qed.

Lemma stored_call_marker_witness :
  exists st',
    @resolve_hit Examples.no_collaborators false ([], [])
      (Examples.inexact_hit "gapA_1_v2" 800) = Ok st' /\
    dict_get "gapA" (snd st') = Some "1".
Proof.
  exact (proj2 (@stored_call_marker Examples.no_collaborators ([], [])
                  (Examples.inexact_hit "gapA_1_v2" 800) "gapA_1_v2" "gapA"
                  eq_refl eq_refl) "gapA" "1" "v2" [] eq_refl).
Defined.

(* ================================================================== *)
(** ** The database loader *)

Lemma pop_last_cons {A : Type} (a : A) (l : list A) :
  exists x r, pop_last (a :: l) = Ok (x, r).
Proof.
  unfold pop_last. destruct (rev (a :: l)) as [|x r] eqn:E; [|eauto].
  apply (f_equal (@List.length A)) in E. rewrite length_rev in E. discriminate.
Qed.

Lemma load_line_without_info (info_arg : string) (db : st_database) (line : string) :
  String.eqb info_arg "yes" = false -> st_to_info db = [] ->
  exists db', load_line info_arg db line = Ok db' /\ st_to_info db' = [].
Proof.
  intros N S. unfold load_line, read_row. rewrite N.
  destruct (split_char_nonempty tab (rstrip line)) as [h [t ->]].
  destruct (List.length (header db) =? 0)%nat; cbn; eauto.
Qed.

(** X9.  Without an info column ([info_arg] other than ["yes"]) the loader
    never raises, whatever the lines are, and the info table stays empty. *)
Theorem loader_without_info (database : list string) (info_arg : string) :
  String.eqb info_arg "yes" = false ->
  exists db, load_st_database database info_arg = Ok db /\ st_to_info db = [].
Proof.
  intros N. unfold load_st_database.
  assert (G : forall db0, st_to_info db0 = [] ->
            exists db, loop (load_line info_arg) database db0 = Ok db /\ st_to_info db = []).
  { induction database as [|line database IH]; intros db0 S; cbn [loop]; [eauto|].
    destruct (load_line_without_info info_arg db0 line N S) as [db1 [-> S1]].
    cbn [bind]. now apply IH. }
  now apply G.
Qed.

Lemma loader_without_info_witness :
  exists db, load_st_database [""; "x"; Examples.row ["10"; "1"]] "no" = Ok db
             /\ st_to_info db = [].
Proof. exact (loader_without_info [""; "x"; Examples.row ["10"; "1"]] "no" eq_refl). Defined.

Lemma load_line_with_info (db : st_database) (line : string) :
  if (2 <=? List.length (split_char tab (rstrip line)))%nat
  then exists db', load_line "yes" db line = Ok db'
  else load_line "yes" db line = Err IndexError.
Proof.
  unfold load_line, read_row. cbn [String.eqb Ascii.eqb Bool.eqb].
  destruct (split_char_nonempty tab (rstrip line)) as [h [t ->]].
  destruct t as [|x t]; cbn [List.length Nat.leb].
  - destruct (List.length (header db) =? 0)%nat; reflexivity.
  - destruct (pop_last_cons x t) as [y [r P]].
    destruct (List.length (header db) =? 0)%nat; cbn [pop_first bind]; rewrite P;
      cbn [bind]; eauto.
Qed.

(** X10.  With an info column the loader raises exactly when some line has
    no TAB left after [rstrip] (a single field, as a blank line has), and
    the exception is [IndexError]. *)
Theorem loader_with_info (database : list string) :
  if forallb (fun line => (2 <=? List.length (split_char tab (rstrip line)))%nat) database
  then exists db, load_st_database database "yes" = Ok db
  else load_st_database database "yes" = Err IndexError.
Proof.
  unfold load_st_database. generalize (mkDb [] [] [] []).
  induction database as [|line database IH]; intros db0; cbn [forallb loop]; [eauto|].
  pose proof (load_line_with_info db0 line) as L.
  destruct (2 <=? List.length (split_char tab (rstrip line)))%nat; cbn [andb].
  - destruct L as [db1 ->]. cbn [bind]. apply IH.
  - now rewrite L.
Qed.

(** X11.  A line that names no locus (one field, or two with an info
    column) leaves the header empty, so it is ignored and the next line is
    read as the header. *)
Theorem empty_header_line_skipped (line info_arg : string) (rest : list string) :
  List.length (split_char tab (rstrip line))
    = (if String.eqb info_arg "yes" then 2 else 1)%nat ->
  load_st_database (line :: rest) info_arg = load_st_database rest info_arg.
Proof.
  intros E. unfold load_st_database. cbn [loop].
  assert (L : load_line info_arg (mkDb [] [] [] []) line = Ok (mkDb [] [] [] [])).
  { unfold load_line. cbn [header List.length Nat.eqb].
    destruct (split_char tab (rstrip line)) as [|a [|b [|c t]]]; cbn [pop_first bind];
      destruct (String.eqb info_arg "yes"); cbn in E; try discriminate; reflexivity. }
  now rewrite L.
Qed.

Lemma empty_header_line_skipped_witness :
  load_st_database ("# MLST scheme" :: Examples.db3) "no"
  = load_st_database Examples.db3 "no".
Proof. exact (empty_header_line_skipped "# MLST scheme" "no" Examples.db3 eq_refl). Defined.

(** X12.  Once a header with at least one locus has been read it is never
    replaced, and every further line adds exactly one ST name, in file
    order, repeated ids included. *)
Theorem st_names_follow_rows (pre rows : list string) (info_arg : string)
    (db0 db : st_database) :
  load_st_database pre info_arg = Ok db0 ->
  (0 < List.length (header db0))%nat ->
  load_st_database (pre ++ rows) info_arg = Ok db ->
  header db = header db0 /\
  exists ids,
    st_names db = (st_names db0 ++ ids)%list /\
    Forall2 (fun line id => exists info alleles, row_of info_arg line = Ok (id, info, alleles))
            rows ids.
Proof.
  unfold load_st_database. intros L0 N L. rewrite loop_app, L0 in L. cbn [bind] in L.
  clear L0. revert db0 N L. induction rows as [|line rows IH]; intros db0 N L; cbn [loop] in L.
  - inversion L; subst. split; [reflexivity|]. exists []. now rewrite app_nil_r.
  - apply bind_ok_inv in L as [db1 [L1 L]]. rewrite (load_line_row _ _ _ N) in L1.
    apply bind_ok_inv in L1 as [[[st info] alleles] [R E]]. inversion E; subst db1; clear E.
    destruct (IH (mkDb (st_names db0 ++ [st]) _ _ (header db0)) N L) as [Hd [ids [S F]]].
    cbn [header st_names] in *.
    split; [assumption|]. exists (st :: ids). rewrite S, <- app_assoc.
    split; [reflexivity|]. constructor; eauto.
Qed.

Lemma st_names_follow_rows_witness :
  header {| st_names := ["10"; "11"];
            alleles_to_st := [("1,2", "10"); ("1,3", "11")];
            st_to_info := [("10", "CG10"); ("11", "CG11")];
            header := ["gapA"; "infB"] |} = ["gapA"; "infB"] /\
  exists ids,
    ["10"; "11"] = ([] ++ ids)%list /\
    Forall2 (fun line id => exists info alleles, row_of "yes" line = Ok (id, info, alleles))
            [Examples.row ["10"; "1"; "2"; "CG10"]; Examples.row ["11"; "1"; "3"; "CG11"]] ids.
Proof.
  refine (st_names_follow_rows [Examples.row ["ST"; "gapA"; "infB"; "clonal_group"]]
            [Examples.row ["10"; "1"; "2"; "CG10"]; Examples.row ["11"; "1"; "3"; "CG11"]]
            "yes" _ _ eq_refl _ eq_refl).
  simpl; lia.
Defined.

(** X13.  Every ST the exact-lookup table or the info table mentions is
    listed in [st_names], and the exact-lookup table has at most one entry
    per listed name. *)
Theorem loaded_tables_within_names (database : list string) (info_arg : string)
    (db : st_database) :
  load_st_database database info_arg = Ok db ->
  (forall key st, dict_get key (alleles_to_st db) = Some st -> In st (st_names db)) /\
  (forall st info, dict_get st (st_to_info db) = Some info -> In st (st_names db)) /\
  (List.length (alleles_to_st db) <= List.length (st_names db))%nat.
Proof.
  unfold load_st_database.
  apply (loop_preserves
           (fun d => (forall key st, dict_get key (alleles_to_st d) = Some st ->
                        In st (st_names d)) /\
                     (forall st info, dict_get st (st_to_info d) = Some info ->
                        In st (st_names d)) /\
                     (List.length (alleles_to_st d) <= List.length (st_names d))%nat)).
  - intros d line d' [A [I Len]] E. unfold load_line in E.
    destruct (List.length (header d) =? 0)%nat.
    + apply bind_ok_inv in E as [[x hdr] [_ E]].
      apply bind_ok_inv in E as [hdr' [_ E]]. inversion E; subst d'. auto.
    + apply bind_ok_inv in E as [[[st info] alleles] [_ E]].
      inversion E; subst d'; clear E. cbn [alleles_to_st st_to_info st_names].
      split; [|split].
      * intros key s G. rewrite in_app_iff.
        apply dict_get_set_cases in G as [[_ ->]|[_ G]]; [right; now left | left; eauto].
      * intros s i G. rewrite in_app_iff.
        destruct (String.eqb info_arg "yes"); [|left; eauto].
        apply dict_get_set_cases in G as [[-> _]|[_ G]]; [right; now left | left; eauto].
      * rewrite length_app. cbn [List.length].
        assert (S : forall (k : string) (v : string) (m : dict string),
                  (List.length (dict_set k v m) <= S (List.length m))%nat).
        { intros k v m. induction m as [|[k' v'] m IHm]; simpl; [lia|].
          destruct (String.eqb k k'); simpl; lia. }
        specialize (S (join "," alleles) st (alleles_to_st d)). lia.
  - repeat split; try discriminate. simpl. lia.
Qed.

Lemma loaded_tables_within_names_witness : In "2" ["1"; "2"].
Proof.
  exact (proj1 (loaded_tables_within_names Examples.db_dup "no" _ eq_refl)
           "1,1" "2" eq_refl).
Defined.

(* ================================================================== *)
(** ** The distance between profiles *)

Lemma int_of_string_error (s : string) (e : exn) :
  int_of_string s = Err e -> e = ValueError.
Proof.
  unfold int_of_string.
  destruct (match lstrip_with is_int_space (rstrip_with is_int_space s) with
            | EmptyString => _ | String _ _ => _ end); congruence.
Qed.

Lemma distance_error (xs ys : list string) (e : exn) :
  distance xs ys = Err e -> e = ValueError.
Proof.
  revert ys; induction xs as [|x xs IH]; intros [|y ys]; simpl; try discriminate.
  destruct (int_of_string x) as [a|e1] eqn:X; cbn [bind];
    [|intros E; inversion E; subst; eapply int_of_string_error; eassumption].
  destruct (int_of_string y) as [b|e2] eqn:Y; cbn [bind];
    [|intros E; inversion E; subst; eapply int_of_string_error; eassumption].
  destruct (distance xs ys) as [d|e3] eqn:D; cbn [bind]; [discriminate|].
  intros E; inversion E; subst. eapply IH; eassumption.
Qed.

(** X14.  The distance is symmetric, exceptions included: the same count
    or the same [ValueError] whichever profile comes first. *)
Theorem distance_sym (xs ys : list string) : distance xs ys = distance ys xs.
Proof.
  revert ys; induction xs as [|x xs IH]; intros [|y ys]; try reflexivity.
  cbn [distance]. rewrite (IH ys).
  destruct (int_of_string x) as [a|e1] eqn:X, (int_of_string y) as [b|e2] eqn:Y;
    cbn [bind]; try reflexivity.
  - now rewrite Z.eqb_sym.
  - now rewrite (int_of_string_error _ _ X), (int_of_string_error _ _ Y).
Qed.

Lemma distance_same (xs extra : list string) :
  forallb parses xs = true -> distance xs (xs ++ extra) = Ok 0%nat.
Proof.
  induction xs as [|x xs IH]; intros P; [now destruct extra|].
  simpl in P. apply andb_true_iff in P as [Px P]. unfold parses in Px.
  cbn [app distance]. destruct (int_of_string x) as [a|]; [|discriminate].
  cbn [bind]. rewrite (IH P). cbn [bind]. now rewrite Z.eqb_refl.
Qed.

(** X15.  Only the common prefix of two profiles is compared: positions
    beyond the shorter one are not read, so a profile whose alleles all
    parse is at distance 0 from any extension of itself. *)
Theorem distance_common_prefix :
  (forall xs ys,
     let n := Nat.min (List.length xs) (List.length ys) in
     distance xs ys = distance (firstn n xs) (firstn n ys)) /\
  (forall xs extra,
     forallb parses xs = true -> distance xs (xs ++ extra) = Ok 0%nat).
Proof.
  split; [|apply distance_same].
  induction xs as [|x xs IH]; intros [|y ys]; try reflexivity.
  cbn [List.length Nat.min firstn distance]. now rewrite (IH ys).
Qed.

Lemma distance_common_prefix_witness : distance ["1"; "2"] ["1"; "2"; "x"] = Ok 0%nat.
Proof. exact (proj2 distance_common_prefix ["1"; "2"] ["x"] eq_refl). Defined.

(* ================================================================== *)
(** ** Profile keys *)

Lemma split_char_sep (c : ascii) (x r : string) :
  contains_char c x = false ->
  split_char c (x ++ String c r) = x :: split_char c r.
Proof.
  induction x as [|a x IH]; simpl.
  - now rewrite Ascii.eqb_refl.
  - destruct (Ascii.eqb a c); simpl; [discriminate|]. intros N. now rewrite IH.
Qed.

(** X16.  Splitting a profile key at the commas gives back the alleles it
    was joined from, provided there is at least one allele and none holds a
    comma; the key of a row without alleles is the empty string, which
    splits into one empty allele. *)
Theorem profile_key_round_trip :
  (forall alleles,
     alleles <> [] ->
     forallb (fun a => negb (contains_char "," a)) alleles = true ->
     split_char "," (join "," alleles) = alleles) /\
  split_char "," (join "," []) = [EmptyString].
Proof.
  split; [|reflexivity].
  induction alleles as [|a alleles IH]; intros N F; [congruence|].
  simpl in F. apply andb_true_iff in F as [Fa F]. apply negb_true_iff in Fa.
  destruct alleles as [|b alleles].
  - simpl. now apply split_char_absent.
  - change (join "," (a :: b :: alleles)) with (a ++ String "," (join "," (b :: alleles))).
    rewrite (split_char_sep _ _ _ Fa), IH; [reflexivity | discriminate | assumption].
Qed.

Lemma profile_key_round_trip_witness :
  split_char "," (join "," ["1"; "22"; "3"]) = ["1"; "22"; "3"].
Proof.
  refine (proj1 profile_key_round_trip ["1"; "22"; "3"] _ eq_refl). discriminate.
Defined.

(* ================================================================== *)
(** ** A blank line in the database *)

Lemma search_step_error (query : list string) (s : search_state) (item : string * string)
    (e : exn) :
  search_step query s item = Err e -> e = ValueError.
Proof.
  destruct item as [key id]. unfold search_step.
  destruct (distance (split_char "," key) query) as [d|e1] eqn:D; cbn [bind];
    [|intros E; inversion E; subst; eapply distance_error; eassumption].
  destruct (d =? min_dist s)%nat.
  - destruct (int_of_string id) as [n|e2] eqn:N; cbn [bind]; [discriminate|].
    intros E; inversion E; subst. eapply int_of_string_error; eassumption.
  - destruct (d <? min_dist s)%nat; [|discriminate].
    destruct (int_of_string id) as [n|e2] eqn:N; cbn [bind]; [discriminate|].
    intros E; inversion E; subst. eapply int_of_string_error; eassumption.
Qed.

Lemma search_loop_error (query : list string) (todo : dict string) (item : string * string) :
  In item todo ->
  (forall s, is_ok (search_step query s item) = false) ->
  forall s, loop (search_step query) todo s = Err ValueError.
Proof.
  intros I Bad. induction todo as [|h todo IH]; [destruct I|]. intros s. cbn [loop].
  destruct (search_step query s h) as [s'|e] eqn:E; cbn [bind].
  - destruct I as [->|I]; [|now apply IH].
    specialize (Bad s). rewrite E in Bad. discriminate.
  - now rewrite (search_step_error _ _ _ _ E).
Qed.

Lemma blank_key_breaks_search (query annotated : list string) (sts : dict string)
    (id : string) :
  In (EmptyString, id) sts -> query <> [] ->
  get_closest_locus_variant query annotated sts = Err ValueError.
Proof.
  intros I N. unfold get_closest_locus_variant.
  rewrite (search_loop_error (map zero_missing query) sts (EmptyString, id) I);
    [reflexivity|].
  intros s. destruct query as [|a query]; [congruence|]. reflexivity.
Qed.

Lemma header_fixed (info_arg : string) (rows : list string) (db0 db : st_database) :
  (0 < List.length (header db0))%nat ->
  loop (load_line info_arg) rows db0 = Ok db ->
  header db = header db0.
Proof.
  intros N. apply (loop_preserves (fun d => header d = header db0)); [|reflexivity].
  intros d line d' Hd E. rewrite load_line_row in E by (rewrite Hd; assumption).
  apply bind_ok_inv in E as [[[st info] alleles] [_ E]]. now inversion E; subst.
Qed.

Lemma dict_mem_set {V : Type} (k k' : string) (v : V) (d : dict V) :
  dict_mem k d = true -> dict_mem k (dict_set k' v d) = true.
Proof.
  unfold dict_mem. destruct (String.eqb_spec k k') as [->|N].
  - now rewrite dict_get_set_same.
  - now rewrite dict_get_set_other.
Qed.

Lemma key_stays_registered (info_arg key : string) (rows : list string)
    (db0 db : st_database) :
  (0 < List.length (header db0))%nat ->
  dict_mem key (alleles_to_st db0) = true ->
  loop (load_line info_arg) rows db0 = Ok db ->
  dict_mem key (alleles_to_st db) = true.
Proof.
  intros N M E.
  cut (header db = header db0 /\ dict_mem key (alleles_to_st db) = true); [tauto|].
  revert E.
  apply (loop_preserves (fun d => header d = header db0 /\
                                  dict_mem key (alleles_to_st d) = true)); [|auto].
  intros d line d' [Hd Md] E. rewrite load_line_row in E by (rewrite Hd; assumption).
  apply bind_ok_inv in E as [[[st info] alleles] [_ E]]. inversion E; subst d'.
  cbn [header alleles_to_st]. split; [assumption | now apply dict_mem_set].
Qed.

(** X17.  Without an info column, a blank line after the header is read as
    a row with the empty profile key; from then on every query that passes
    the first gate without an exact key match raises [ValueError] in the
    nearest-variant search, through [int('')]. *)
Theorem blank_line_breaks_search `{Collaborators} (pre post : list string)
    (line info_arg : string) (hits : list Hit) (max_missing : Z) (ct ri am : bool)
    (db0 db : st_database) (kept : list Hit) (best_allele : dict string) :
  String.eqb info_arg "yes" = false ->
  load_st_database pre info_arg = Ok db0 ->
  (0 < List.length (header db0))%nat ->
  rstrip line = EmptyString ->
  load_st_database (pre ++ line :: post) info_arg = Ok db ->
  (if negb am then keep_only_one_hit_per_locus hits else Ok hits) = Ok kept ->
  get_best_allele_per_locus kept ct = Ok best_allele ->
  let p := build_profile (header db) best_allele in
  (Z.of_nat (mismatch_loci_including_snps p) <= max_missing)%Z ->
  dict_mem (join "," (best_st p)) (alleles_to_st db) = false ->
  mlst_blast (pre ++ line :: post) info_arg hits max_missing ct ri am = Err ValueError.
Proof.
  intros Ni L0 N Blank L K R p G M.
  assert (Hd : header db = header db0 /\ dict_mem EmptyString (alleles_to_st db) = true).
  { unfold load_st_database in L0, L. rewrite loop_app, L0 in L. cbn [bind loop] in L.
    apply bind_ok_inv in L as [db1 [L1 L]].
    rewrite (load_line_row _ _ _ N) in L1. unfold row_of, read_row in L1.
    rewrite Blank, Ni in L1. cbn in L1. inversion L1; subst db1; clear L1.
    split.
    - exact (header_fixed info_arg post (mkDb _ _ _ (header db0)) db N L).
    - refine (key_stays_registered info_arg EmptyString post
                (mkDb _ _ _ (header db0)) db N _ L).
      cbn [alleles_to_st]. unfold dict_mem. now rewrite dict_get_set_same. }
  destruct Hd as [Hd Mem].
  destruct (dict_item_mem _ _ Mem) as [id [Gid _]]. apply dict_get_in in Gid.
  rewrite (mlst_blast_unfold _ _ _ _ _ _ _ _ _ _ L K R). cbv zeta. fold p.
  unfold assign_st. rewrite M.
  destruct (Z.leb_spec (Z.of_nat (mismatch_loci_including_snps p)) max_missing); [|lia].
  rewrite (blank_key_breaks_search _ _ _ _ Gid); [reflexivity|].
  intros E. apply (f_equal (@List.length string)) in E.
  unfold p in E. rewrite best_st_length, Hd in E. simpl in E. lia.
Qed.

Lemma blank_line_breaks_search_witness :
  @mlst_blast Examples.no_collaborators
    ([Examples.row ["ST"; "gapA"; "infB"; "mdh"]; Examples.row ["10"; "1"; "2"; "3"]]
       ++ String "010" EmptyString :: [])
    "no" [Examples.exact_hit "gapA_1" 800; Examples.exact_hit "infB_2" 800;
          Examples.exact_hit "mdh_4" 800] 3 false false false
  = Err ValueError.
Proof.
  refine (@blank_line_breaks_search Examples.no_collaborators
            [Examples.row ["ST"; "gapA"; "infB"; "mdh"]; Examples.row ["10"; "1"; "2"; "3"]]
            [] (String "010" EmptyString) "no"
            [Examples.exact_hit "gapA_1" 800; Examples.exact_hit "infB_2" 800;
             Examples.exact_hit "mdh_4" 800] 3 false false false _ _ _ _
            eq_refl eq_refl _ eq_refl eq_refl eq_refl eq_refl _ eq_refl);
    [simpl; lia | vm_compute; discriminate].
Defined.

(* ================================================================== *)
(** ** Markers of a call and their removal *)

(** X18.  Lines 59-60 undo the annotation of the resolver: for a number
    without ['*'] and ['-'], removing the markers from the number, from the
    number followed by ['*'], by a tag [-<digits>%], or by both, gives the
    number back; and line 205 gives the number back from a tagged call. *)
Theorem markers_stripped (number tag : string) :
  contains_char "*" number = false ->
  contains_char "-" number = false ->
  is_truncation_tag tag ->
  allele_number number = number /\
  allele_number (number ++ "*") = number /\
  allele_number (number ++ tag) = number /\
  allele_number (number ++ "*" ++ tag) = number /\
  re_sub_truncation (number ++ tag) = number.
Proof.
  intros S M T. destruct (tag_removed _ T) as [R St].
  assert (P : forall t, re_sub_truncation t = EmptyString ->
            re_sub_truncation (number ++ t) = number).
  { intros t E. unfold re_sub_truncation in *.
    rewrite (re_sub_plain _ _ M), E. apply append_empty_r. }
  unfold allele_number.
  rewrite !remove_char_app, (remove_char_absent _ _ S), (remove_char_absent _ _ St).
  cbn [remove_char Ascii.eqb Bool.eqb append].
  repeat split; try (apply P; assumption).
  - rewrite <- (append_empty_r number) at 1. now apply P.
  - now apply P.
Qed.

Lemma markers_stripped_witness : allele_number ("12" ++ "*" ++ "-70%") = "12".
Proof.
  refine (proj1 (proj2 (proj2 (proj2
            (markers_stripped "12" "-70%" eq_refl eq_refl _))))).
  exists "70". repeat split. discriminate.
Defined.

(* ================================================================== *)
(** ** The truncation routine *)

Lemma uint_digits (u : Decimal.uint) :
  all_digits (NilEmpty.string_of_uint u) = true.
Proof. induction u; simpl; auto. Qed.

Lemma str_of_int_digits (z : Z) :
  (0 <= z)%Z -> all_digits (str_of_int z) = true /\ str_of_int z <> EmptyString.
Proof.
  intros P. unfold str_of_int. destruct z as [|p|p]; [split; [reflexivity | discriminate]| |lia].
  cbn [Z.to_int NilZero.string_of_int].
  destruct (Pos.to_uint p) eqn:U; (split; [|discriminate]);
    try reflexivity; rewrite <- U; unfold NilZero.string_of_uint; rewrite U;
    rewrite <- U; apply uint_digits.
Qed.

Lemma round_half_even_nonneg (q : Q) : (0 <= q)%Q -> (0 <= Truncation.round_half_even q)%Z.
Proof.
  intros P. pose proof (Qfloor_resp_le _ _ P) as F. change (Qfloor 0) with 0%Z in F.
  unfold Truncation.round_half_even.
  destruct (_ =? 0)%Z; [assumption|]. destruct (Qeq_bool _ _); [|lia].
  destruct (Z.even (Qfloor q)); lia.
Qed.

Lemma coverage_nonneg (len : nat) (ref_aa_length : Z) :
  (0 < ref_aa_length)%Z ->
  (0 <= 100 * inject_Z (Z.of_nat len) / inject_Z ref_aa_length)%Q.
Proof.
  intros P. apply Qle_shift_div_l.
  - unfold Qlt. simpl. lia.
  - rewrite Qmult_0_l. apply Qmult_le_0_compat; unfold Qle; simpl; lia.
Qed.

(** X19.  On a reference of six bases or more the routine itself never
    raises (its two collaborators returning), and what it returns is the
    empty string or a tag [-<digits>%], which is
    a text that the pattern of lines 60 and 205 of [mlstBLAST.py] removes
    entirely. *)
Theorem truncation_tag_shape `{Collaborators} (nucl_seq strand : string)
    (ref_start ref_end ref_length : Z) (cov_threshold : Q) :
  (6 <= ref_length)%Z ->
  exists tag,
    Truncation.truncation_check nucl_seq strand ref_start ref_end ref_length cov_threshold
      = Ok tag /\
    (tag = EmptyString \/ is_truncation_tag tag) /\
    re_sub_truncation tag = EmptyString.
Proof.
  intros L.
  assert (G : forall r : result string,
            (exists tag, r = Ok tag /\ (tag = EmptyString \/ is_truncation_tag tag)) ->
            exists tag, r = Ok tag /\ (tag = EmptyString \/ is_truncation_tag tag) /\
                        re_sub_truncation tag = EmptyString).
  { intros r [tag [E T]]. exists tag. repeat split; auto.
    destruct T as [->|T]; [reflexivity | apply (tag_removed _ T)]. }
  apply G. unfold Truncation.truncation_check.
  destruct (String.eqb strand "minus");
    match goal with
    | |- context [negb (?s =? 1)%Z] => destruct (s =? 1)%Z
    end; cbn [negb];
    try (exists "-0%"; split; [reflexivity|]; right; exists "0";
         repeat split; discriminate).
  all: assert (P : (0 < (ref_length - 3) / 3)%Z)
         by (apply Z.div_str_pos; lia).
  all: destruct (Z.eqb_spec ((ref_length - 3) / 3) 0) as [Z0|_]; [lia|].
  all: match goal with
       | |- context [Qle_bool ?t (100 * inject_Z (Z.of_nat ?len) / inject_Z ?r)%Q] =>
           pose proof (coverage_nonneg len r P) as C;
           destruct (Qle_bool t (100 * inject_Z (Z.of_nat len) / inject_Z r)%Q);
           [exists EmptyString; auto|]
       end.
  all: eexists; split; [reflexivity|]; right.
  all: unfold Truncation.format_0f.
  all: destruct (Z.ltb_spec ((ref_length - 3) / 3) 0) as [Neg|_]; [lia|]; cbn [andb].
  all: destruct (str_of_int_digits _ (round_half_even_nonneg _ C)) as [D N].
  all: eexists; repeat split; eassumption.
Qed.

Lemma truncation_tag_shape_witness :
  exists tag,
    @Truncation.truncation_check Examples.no_collaborators
      "ATGAAATAGCCC" "plus" 1 12 12 90 = Ok tag /\
    (tag = EmptyString \/ is_truncation_tag tag) /\
    re_sub_truncation tag = EmptyString.
Proof.
  refine (@truncation_tag_shape Examples.no_collaborators
            "ATGAAATAGCCC" "plus" 1 12 12 90 _).
  lia.
Defined.

(** X20.  Its collaborators returning, the routine raises exactly on a hit
    that starts at reference position 1 of a reference of three to five
    bases, where the expected protein length is zero; the exception is
    [ZeroDivisionError]. *)
Theorem truncation_check_division `{Collaborators} (nucl_seq strand : string)
    (ref_start ref_end ref_length : Z) (cov_threshold : Q) :
  if (starts_at strand ref_start ref_end =? 1)%Z
     && (3 <=? ref_length)%Z && (ref_length <=? 5)%Z
  then Truncation.truncation_check nucl_seq strand ref_start ref_end ref_length
         cov_threshold = Err ZeroDivisionError
  else exists tag,
         Truncation.truncation_check nucl_seq strand ref_start ref_end ref_length
           cov_threshold = Ok tag.
Proof.
  unfold Truncation.truncation_check, starts_at.
  destruct (String.eqb strand "minus");
    match goal with
    | |- context [negb (?s =? 1)%Z] => destruct (s =? 1)%Z
    end; cbn [negb andb]; eauto.
  all: destruct (Z.leb_spec 3 ref_length) as [A|A];
         destruct (Z.leb_spec ref_length 5) as [B|B]; cbn [andb].
  all: try (rewrite (Z.div_small (ref_length - 3) 3) by lia; reflexivity).
  all: destruct (Z.eqb_spec ((ref_length - 3) / 3) 0) as [Z0|_];
         [exfalso|destruct (Qle_bool _ _); eauto].
  all: try (assert ((ref_length - 3) / 3 < 0)%Z by (apply Z.div_lt_upper_bound; lia); lia).
  all: assert (0 < (ref_length - 3) / 3)%Z by (apply Z.div_str_pos; lia); lia.
Qed.

Lemma take_without (c : ascii) (k : nat) (s : string) :
  contains_char c s = false -> contains_char c (Truncation.take k s) = false.
Proof.
  revert s; induction k as [|k IH]; intros [|a s]; simpl; try reflexivity.
  destruct (Ascii.eqb a c); simpl; [discriminate | apply IH].
Qed.

Lemma take_length (k : nat) (s : string) :
  (k <= String.length s)%nat -> String.length (Truncation.take k s) = k.
Proof.
  revert s; induction k as [|k IH]; intros [|a s]; simpl; try reflexivity; try lia.
  intros L. rewrite IH; lia.
Qed.

(** X21.  The translation is only ever asked for a sequence that is a
    whole number of codons and holds no [N]: two translation routines that
    agree on such sequences give the same result of the check. *)
Theorem translation_on_whole_codons (C1 C2 : Collaborators)
    (nucl_seq strand : string) (ref_start ref_end ref_length : Z) (cov_threshold : Q) :
  (forall s, @reverse_complement C1 s = @reverse_complement C2 s) ->
  (forall s, (String.length s mod 3 = 0)%nat -> contains_char "N" s = false ->
             @translate_to_stop C1 s = @translate_to_stop C2 s) ->
  @Truncation.truncation_check C1 nucl_seq strand ref_start ref_end ref_length cov_threshold
  = @Truncation.truncation_check C2 nucl_seq strand ref_start ref_end ref_length cov_threshold.
Proof.
  intros Rc Tr. unfold Truncation.truncation_check. rewrite Rc.
  assert (T : forall s,
            let codons := Truncation.take (String.length (hd EmptyString (split_char "N" s)) / 3 * 3)
                            (hd EmptyString (split_char "N" s)) in
            @translate_to_stop C1 codons = @translate_to_stop C2 codons).
  { intros s codons. subst codons.
    destruct (split_char_first "N" s) as [h [t [rest [S [N _]]]]]. rewrite S. cbn [hd].
    apply Tr.
    - rewrite take_length.
      + apply Nat.Div0.mod_mul.
      + rewrite Nat.mul_comm. apply Nat.Div0.mul_div_le.
    - now apply take_without. }
  destruct (String.eqb strand "minus"); cbv zeta in T |- *; now rewrite T.
Qed.

Lemma translation_on_whole_codons_witness :
  @Truncation.truncation_check Examples.no_collaborators "ATGANNTAGCC" "plus" 1 30 30 90
  = @Truncation.truncation_check codon_only_collaborators "ATGANNTAGCC" "plus" 1 30 30 90.
Proof.
  refine (translation_on_whole_codons Examples.no_collaborators codon_only_collaborators
            "ATGANNTAGCC" "plus" 1 30 30 90 (fun s => eq_refl) _).
  intros s M N.
  cbv [translate_to_stop Examples.no_collaborators codon_only_collaborators].
  rewrite M, N. reflexivity.
Defined.

(* ================================================================== *)
(** ** The assignment as a whole *)

Lemma assign_st_mismatch_le (hdr : list string) (ba sts : dict string) (max_missing : Z)
    (bst : string) (mismatch : nat) (query : list string) :
  assign_st (build_profile hdr ba) sts max_missing = Ok (bst, mismatch, query) ->
  (mismatch <= List.length hdr)%nat.
Proof.
  unfold assign_st. rewrite build_profile_eq.
  cbn [mismatch_loci_including_snps best_st best_st_annotated].
  assert (C : (count_loci (is_mismatch ba) hdr <= List.length hdr)%nat)
    by apply filter_length_le.
  destruct (_ <=? _)%Z.
  - destruct (dict_mem _ sts).
    + intros E. apply bind_ok_inv in E as [v [_ E]]. now inversion E; subst.
    + intros E. apply bind_ok_inv in E as [[q [[st md] mm]] [G E]].
      inversion E; subst. apply get_closest_spec in G as [_ [_ [pr [_ D]]]].
      apply distance_le in D. now rewrite !length_map in D.
  - intros E. now inversion E; subst.
Qed.

(** X22.  Whenever the assignment step returns, [mlst_blast] returns: the
    mismatch count that becomes the LV number is at most the number of
    loci, so the count of exact matches is never negative, and the
    annotated list has one entry for each locus of the header. *)
Theorem lv_count_bounded `{Collaborators} (database : list string) (info_arg : string)
    (hits : list Hit) (max_missing : Z) (ct ri am : bool)
    (db : st_database) (kept : list Hit) (best_allele : dict string)
    (bst : string) (mismatch : nat) (query : list string) :
  load_st_database database info_arg = Ok db ->
  (if negb am then keep_only_one_hit_per_locus hits else Ok hits) = Ok kept ->
  get_best_allele_per_locus kept ct = Ok best_allele ->
  assign_st (build_profile (header db) best_allele) (alleles_to_st db) max_missing
    = Ok (bst, mismatch, query) ->
  (mismatch <= List.length (header db))%nat /\
  exists lbl annotated info,
    mlst_blast database info_arg hits max_missing ct ri am = Ok (lbl, annotated, info) /\
    List.length annotated = List.length (header db).
Proof.
  intros L K R A. split; [eapply assign_st_mismatch_le; eassumption|].
  rewrite (mlst_blast_unfold _ _ _ _ _ _ _ _ _ _ L K R). cbv zeta.
  rewrite A; cbn [bind].
  destruct (info_column_total info_arg (st_to_info db) ri
              (missing_loci (build_profile (header db) best_allele))
              (gate2 (List.length (header db) / 2) query mismatch bst)) as [info ->].
  cbn [bind]. do 3 eexists. split; [reflexivity|].
  rewrite build_profile_eq. cbn [best_st_annotated]. apply length_map.
Qed.

Lemma lv_count_bounded_witness :
  (2 <= List.length ["gapA"; "infB"; "mdh"])%nat /\
  exists lbl annotated info,
    @mlst_blast Examples.no_collaborators Examples.db3 "no"
      [Examples.exact_hit "gapA_1" 800; Examples.inexact_hit "infB_2" 790;
       Examples.exact_hit "mdh_4" 800] 3 false false false = Ok (lbl, annotated, info) /\
    List.length annotated = List.length ["gapA"; "infB"; "mdh"].
Proof.
  exact (@lv_count_bounded Examples.no_collaborators Examples.db3 "no"
           [Examples.exact_hit "gapA_1" 800; Examples.inexact_hit "infB_2" 790;
            Examples.exact_hit "mdh_4" 800] 3 false false false _ _ _
           "10" 2%nat ["1"; "2"; "4"] eq_refl eq_refl eq_refl eq_refl).
Defined.

(** X23.  A query whose joined allele numbers are a registered key keeps
    the count of its inexact and missing loci: when that count [k] is within
    [max_missing] and leaves at least half of the loci exact, the label is
    the registered ST itself for [k = 0] and [<ST>-<k>LV] for a positive
    [k] (the ST not being ["0"]); no nearest-variant search is made. *)
Theorem exact_key_with_snps `{Collaborators} (database : list string) (info_arg : string)
    (hits : list Hit) (max_missing : Z) (ct ri am : bool)
    (db : st_database) (kept : list Hit) (best_allele : dict string) (st : string) :
  load_st_database database info_arg = Ok db ->
  (if negb am then keep_only_one_hit_per_locus hits else Ok hits) = Ok kept ->
  get_best_allele_per_locus kept ct = Ok best_allele ->
  dict_get (join "," (map (number_of best_allele) (header db))) (alleles_to_st db)
    = Some st ->
  let loci := List.length (header db) in
  let k := count_loci (is_mismatch best_allele) (header db) in
  (Z.of_nat k <= max_missing)%Z ->
  (loci / 2 <= loci - k)%nat ->
  exists lbl info,
    mlst_blast database info_arg hits max_missing ct ri am
      = Ok (lbl, map (call_of best_allele) (header db), info) /\
    (k = 0%nat -> lbl = st) /\
    ((0 < k)%nat -> st <> "0" -> lbl = st ++ "-" ++ str_of_int (Z.of_nat k) ++ "LV").
Proof.
  intros L K R G loci k M E.
  assert (Kle : (k <= loci)%nat) by apply filter_length_le.
  assert (A : assign_st (build_profile (header db) best_allele) (alleles_to_st db)
                max_missing = Ok (st, k, map (number_of best_allele) (header db))).
  { unfold assign_st. rewrite build_profile_eq.
    cbn [mismatch_loci_including_snps best_st]. fold k.
    destruct (Z.leb_spec (Z.of_nat k) max_missing); [|lia].
    unfold dict_mem, dict_item. now rewrite G. }
  rewrite (mlst_blast_unfold _ _ _ _ _ _ _ _ _ _ L K R). cbv zeta.
  rewrite A; cbn [bind].
  assert (G2 : gate2 (List.length (header db) / 2)
                 (map (number_of best_allele) (header db)) k st = st).
  { unfold gate2. rewrite length_map. fold loci.
    destruct (Z.ltb_spec (Z.of_nat loci - Z.of_nat k) (Z.of_nat (loci / 2)));
      [lia | reflexivity]. }
  rewrite G2.
  destruct (info_column_total info_arg (st_to_info db) ri
              (missing_loci (build_profile (header db) best_allele)) st) as [info ->].
  cbn [bind]. exists (label k st), info. rewrite build_profile_eq.
  split; [reflexivity|]. unfold label. split.
  - intros ->. reflexivity.
  - intros P N. destruct (Nat.ltb_spec 0 k); [|lia].
    apply String.eqb_neq in N. now rewrite N.
Qed.

Lemma exact_key_with_snps_witness :
  exists lbl info,
    @mlst_blast Examples.no_collaborators Examples.db3 "no"
      [Examples.exact_hit "gapA_1" 800; Examples.inexact_hit "infB_2" 790;
       Examples.exact_hit "mdh_3" 800] 3 false false false
      = Ok (lbl, ["1"; "2*"; "3"], info) /\
    (1%nat = 0%nat -> lbl = "10") /\
    ((0 < 1)%nat -> "10" <> "0" -> lbl = "10-1LV").
Proof.
  refine (@exact_key_with_snps Examples.no_collaborators Examples.db3 "no"
            [Examples.exact_hit "gapA_1" 800; Examples.inexact_hit "infB_2" 790;
             Examples.exact_hit "mdh_3" 800] 3 false false false _ _ _ "10"
            eq_refl eq_refl eq_refl eq_refl _ _);
    [vm_compute; discriminate | simpl; lia].
Defined.


